(** * vgen: LFSR Verilog generators

    A shallow embedding of [vgen_rand.py] (parallel pseudo-random module
    generator) and [vgen_lfsr.py] (sequential LFSR module generator), and the
    properties of the symbolic cycle expansion, of the polynomial parser and
    of the emitted text.

    Python integers are [Z], Python sets of integers are [gset Z], Python
    lists are [list] with checked indexing, Python strings are [string].
    Exceptions are values of [exn], threaded by the [result] monad. *)

From Stdlib Require Import Ascii.
From stdpp Require Import gmap strings pretty list sorting.

Local Open Scope Z_scope.

(** ** Exceptions and the error monad *)

(** The exceptions the modelled code can raise.  The two [assert] statements
    of [parse_polynomial] raise the same Python exception, [AssertionError];
    they are told apart by their site. *)
Inductive exn : Type :=
  | AssertionError_prefix   (* assert gen_poly.startswith('0b') or ...('0x') *)
  | AssertionError_zero     (* assert eval(gen_poly) != 0 *)
  | EvalOutsideModel        (* eval of a string that is not a plain literal *)
  | IndexError.             (* list index out of range *)

Inductive result (A : Type) : Type :=
  | Ok (a : A)
  | Raise (e : exn).
Arguments Ok {A} a.
Arguments Raise {A} e.

#[global] Instance result_ret : MRet result := λ A a, Ok a.
#[global] Instance result_bind : MBind result := λ A B k m,
  match m with
  | Ok a => k a
  | Raise e => Raise e
  end.

(** A [for] loop over the items of [xs] whose body may raise. *)
Fixpoint for_each {S} (xs : list Z) (body : Z → S → result S) (s : S)
  : result S :=
  match xs with
  | [] => Ok s
  | x :: xs' => s' ← body x s; for_each xs' body s'
  end.

(** ** Python primitives *)

(** [range(n)]: 0, 1, ..., n-1; empty when [n <= 0]. *)
Definition py_range (n : Z) : list Z :=
  Z.of_nat <$> seq 0 (Z.to_nat n).

(** [range(start, stop, -1)]: start, start-1, ..., stop+1. *)
Definition py_range_down (start stop : Z) : list Z :=
  (λ k, start - Z.of_nat k) <$> seq 0 (Z.to_nat (start - stop)).

(** [len(l)]. *)
Definition len {A} (l : list A) : Z := Z.of_nat (length l).

(** [l[i]]: a negative index counts from the end, an index out of range
    raises [IndexError]. *)
Definition getitem {A} (l : list A) (i : Z) : result A :=
  let j := if 0 <=? i then i else len l + i in
  if (0 <=? j) && (j <? len l) then
    match l !! Z.to_nat j with
    | Some a => Ok a
    | None => Raise IndexError
    end
  else Raise IndexError.

(** [l[i] = v]. *)
Definition setitem {A} (l : list A) (i : Z) (v : A) : result (list A) :=
  let j := if 0 <=? i then i else len l + i in
  if (0 <=? j) && (j <? len l) then Ok (<[Z.to_nat j := v]> l)
  else Raise IndexError.

(** ** vgen_rand.py: the symbolic cycle expander *)

(** A symbolic term: the set of seed-bit indices that are XORed together. *)
Abbreviation term := (gset Z).

(** [xor_two_sets]: [set.union(set1, set2) - set.intersection(set1, set2)]. *)
Definition xor_two_sets (set1 set2 : term) : term :=
  (set1 ∪ set2) ∖ (set1 ∩ set2).

(** The inner loop of [gen_random] that computes [xor_out]. *)
Definition xor_taps (one_indices : list Z) (cur_sets : list term)
  : result term :=
  for_each (py_range (len one_indices))
    (λ oo xor_out,
       t ← getitem one_indices oo;
       c ← getitem cur_sets t;
       Ok (xor_two_sets xor_out c))
    ∅.

(** The inner loop of [gen_random] that shifts [cur_sets]:
    [for ii in range(lfsr_len-1,0,-1): cur_sets[ii] = cur_sets[ii-1]].
    The sets are never mutated in place, so sharing one set object between
    two cells is not observable. *)
Definition shift_sets (lfsr_len : Z) (cur_sets : list term)
  : result (list term) :=
  for_each (py_range_down (lfsr_len - 1) 0)
    (λ ii cur_sets,
       v ← getitem cur_sets (ii - 1);
       setitem cur_sets ii v)
    cur_sets.

(** One iteration of the outer loop of [gen_random], on the pair
    [(cur_sets, rand_out)]. *)
Definition gen_random_body (lfsr_len : Z) (one_indices : list Z)
    (st : list term * list term) : result (list term * list term) :=
  let '(cur_sets, rand_out) := st in
  xor_out ← xor_taps one_indices cur_sets;
  cur_sets ← shift_sets lfsr_len cur_sets;
  cur_sets ← setitem cur_sets 0 xor_out;
  Ok (cur_sets, rand_out ++ [xor_out]).

Definition gen_random (lfsr_len : Z) (one_indices : list Z) (rand_wd : Z)
  : result (list term) :=
  let rand_out := [] in
  let cur_sets := (λ ii, ({[ ii ]} : term)) <$> py_range lfsr_len in
  st ← for_each (py_range rand_wd)
         (λ _ st, gen_random_body lfsr_len one_indices st)
         (cur_sets, rand_out);
  Ok st.2.

(** ** The polynomial parser (the same function in both scripts) *)

(** [s.startswith(p)]. *)
Definition startswith (s p : string) : bool := String.prefix p s.

(** [s[n:]]. *)
Fixpoint slice_from (n : nat) (s : string) : string :=
  match n, s with
  | O, _ => s
  | S n', String _ s' => slice_from n' s'
  | S _, EmptyString => EmptyString
  end.

Definition bin_digit (c : ascii) : option Z :=
  match c with
  | "0" => Some 0 | "1" => Some 1 | _ => None
  end%char.

(** The value of a hexadecimal digit, from its character code: ['0'..'9']
    are 48..57, ['a'..'f'] are 97..102 and ['A'..'F'] are 65..70. *)
Definition hex_digit (c : ascii) : option Z :=
  let n := Z.of_N (N_of_ascii c) in
  if (48 <=? n) && (n <=? 57) then Some (n - 48)
  else if (97 <=? n) && (n <=? 102) then Some (n - 87)
  else if (65 <=? n) && (n <=? 70) then Some (n - 55)
  else None.

(** The value of a digit string in a base, most significant digit first. *)
Fixpoint digits_value (digit : ascii → option Z) (base : Z) (acc : Z)
    (ds : string) : option Z :=
  match ds with
  | EmptyString => Some acc
  | String c ds' =>
      match digit c with
      | Some d => digits_value digit base (acc * base + d) ds'
      | None => None
      end
  end.

(** [eval(s)], on the strings that are a plain binary or hexadecimal integer
    literal: a lower-case prefix [0b] or [0x] followed by one or more digits
    of the base.  On any other string (underscores or blanks inside a
    literal, an upper-case prefix, another expression, a syntax error) the
    behaviour of Python's [eval] is not modelled and [EvalOutsideModel]
    stands for it. *)
Definition py_eval (s : string) : result Z :=
  match s with
  | String "0" (String "b" (String c ds)) =>
      match digits_value bin_digit 2 0 (String c ds) with
      | Some v => Ok v
      | None => Raise EvalOutsideModel
      end
  | String "0" (String "x" (String c ds)) =>
      match digits_value hex_digit 16 0 (String c ds) with
      | Some v => Ok v
      | None => Raise EvalOutsideModel
      end
  | _ => Raise EvalOutsideModel
  end.

(** The binary digits of a positive number, most significant first. *)
Fixpoint bin_digits (p : positive) : string :=
  match p with
  | xH => "1"
  | xO p' => bin_digits p' +:+ "0"
  | xI p' => bin_digits p' +:+ "1"
  end.

(** [bin(v)]. *)
Definition py_bin (v : Z) : string :=
  match v with
  | Z0 => "0b0"
  | Zpos p => "0b" +:+ bin_digits p
  | Zneg p => "-0b" +:+ bin_digits p
  end.

(** [parse_polynomial] of [vgen_rand.py] and of [vgen_lfsr.py]: the two
    scripts define it with the same text. *)
Definition parse_polynomial (gen_poly : string) : result (Z * list Z) :=
  if negb (startswith gen_poly "0b" || startswith gen_poly "0x")
  then Raise AssertionError_prefix else
  gen_poly ← (if startswith gen_poly "0x"
              then v ← py_eval gen_poly; Ok (py_bin v)
              else Ok gen_poly);
  v ← py_eval gen_poly;
  if v =? 0 then Raise AssertionError_zero else
  let bin_str := slice_from 2 gen_poly in
  let lfsr_len := Z.of_nat (String.length bin_str) in
  let one_indices :=
    foldl (λ one_indices ii,
             if decide (String.get (Z.to_nat ii) bin_str = Some "1"%char)
             then one_indices ++ [lfsr_len - 1 - ii]
             else one_indices)
          [] (py_range (Z.of_nat (String.length bin_str))) in
  Ok (lfsr_len, one_indices).

(** ** The emitted text *)

(** [range(start, stop)]. *)
Definition py_range2 (start stop : Z) : list Z :=
  (λ k, start + Z.of_nat k) <$> seq 0 (Z.to_nat (stop - start)).

(** The line feed character. *)
Definition nl : string := String "010"%char "".

(** [s * n] on a string. *)
Fixpoint str_repeat (s : string) (n : nat) : string :=
  match n with
  | O => ""
  | S n' => s +:+ str_repeat s n'
  end.

(** ["%d" % z]. *)
Definition fmt_d (z : Z) : string := pretty z.

Definition hex_char (d : Z) : ascii :=
  match d with
  | 0 => "0" | 1 => "1" | 2 => "2" | 3 => "3" | 4 => "4" | 5 => "5"
  | 6 => "6" | 7 => "7" | 8 => "8" | 9 => "9" | 10 => "a" | 11 => "b"
  | 12 => "c" | 13 => "d" | 14 => "e" | _ => "f"
  end%char.

Fixpoint hex_digits_go (fuel : nat) (v : Z) (acc : string) : string :=
  match fuel with
  | O => acc
  | S fuel' =>
      if v =? 0 then acc
      else hex_digits_go fuel' (v / 16) (String (hex_char (v mod 16)) acc)
  end.

(** [hex(v)]. *)
Definition py_hex (v : Z) : string :=
  match v with
  | Z0 => "0x0"
  | Zpos p => "0x" +:+ hex_digits_go (Pos.size_nat p) v ""
  | Zneg p => "-0x" +:+ hex_digits_go (Pos.size_nat p) (Z.pos p) ""
  end.

(** The files written and the lines printed by a run. [open(name, 'w')]
    creates or truncates the file; the text reaches it with [write] and
    [close]. *)
Record world : Type := World {
  files : gmap string string;
  stdout : list string
}.

Definition open_w (filename : string) (w : world) : world :=
  World (<[filename := ""]> (files w)) (stdout w).

Definition write_close (filename code : string) (w : world) : world :=
  World (<[filename := code]> (files w)) (stdout w).

Definition print (line : string) (w : world) : world :=
  World (files w) (stdout w ++ [line]).

Definition indent : string := "    ".

(** The loop of both [gen_verilog] functions that renders the polynomial:
    it returns the pair of the digit string, appended to [bin_str], and of
    [poly_str] before the final ['1']. *)
Definition poly_strings (bin_str : string) (lfsr_len : Z)
    (one_indices : list Z) : string * string :=
  foldl (λ '(bin_str, poly_str) ii,
           if bool_decide (ii ∈ one_indices)
           then (bin_str +:+ "1", poly_str +:+ "x^" +:+ fmt_d (ii + 1) +:+ " + ")
           else (bin_str +:+ "0", poly_str))
        (bin_str, "") (py_range_down (lfsr_len - 1) (-1)).

Module vgen_lfsr.

(** The feedback equation: lines 99 to 106. *)
Definition feedback_text (one_indices : list Z) : result string :=
  let code := indent +:+ "logic    fb; // feedback bit" +:+ nl in
  t0 ← getitem one_indices 0;
  let code := code +:+ indent +:+ "assign fb = lsfr[" +:+ fmt_d t0 +:+ "]" in
  let code :=
    if 1 <? len one_indices
    then foldl (λ code oo, code +:+ " ^ lsfr[" +:+ fmt_d oo +:+ "]")
               code (drop 1 one_indices)
    else code in
  Ok (code +:+ ";" +:+ nl +:+ nl).

(** The clocked process: lines 108 to 115. *)
Definition process_text (lfsr_len : Z) : string :=
  indent +:+ "always @(posedge clk) begin" +:+ nl +:+
  str_repeat indent 2 +:+ "if (rst) begin" +:+ nl +:+
  str_repeat indent 3 +:+ "lfsr <= seed;" +:+ nl +:+
  str_repeat indent 2 +:+ "end" +:+ nl +:+
  str_repeat indent 2 +:+ "else begin" +:+ nl +:+
  str_repeat indent 3 +:+ "lfsr <= {lsfr[" +:+ fmt_d (lfsr_len - 2)
    +:+ ":0], fb};" +:+ nl +:+
  str_repeat indent 2 +:+ "end" +:+ nl +:+
  indent +:+ "end" +:+ nl.

(** The banner, the module header and the ports: lines 84 to 97. *)
Definition header_text (lfsr_len : Z) (prefix bin_str poly_str : string)
  : string :=
  str_repeat "/" 80 +:+ nl +:+
  "///// Generated code. Don't modify! " +:+ nl +:+
  "///// Author: Anh Tran (Andrew) " +:+ nl +:+
  "///// This module computes " +:+ fmt_d lfsr_len
    +:+ "-bit LFSR bits from an input seed " +:+ nl +:+
  "///// based on the LFSR polynomial: " +:+ poly_str +:+ " " +:+ nl +:+
  str_repeat "/" 80 +:+ nl +:+
  "module " +:+ prefix +:+ "_lfsr_" +:+ fmt_d lfsr_len +:+ "_" +:+ bin_str
    +:+ " (" +:+ nl +:+
  indent +:+ "input    clk," +:+ nl +:+
  indent +:+ "input    rst," +:+ nl +:+ nl +:+
  indent +:+ "input [" +:+ fmt_d lfsr_len +:+ "-1:0]   seed, " +:+ nl +:+
  indent +:+ "output [" +:+ fmt_d lfsr_len +:+ "-1:0]  lfsr" +:+ nl +:+
  indent +:+ ");" +:+ nl +:+ nl.

(** The value of [code] when it is written, or the exception raised
    while it is built. *)
Definition module_text (lfsr_len : Z) (one_indices : list Z)
    (prefix : string) : result string :=
  let '(bin_str, poly_str) := poly_strings "" lfsr_len one_indices in
  let poly_str := poly_str +:+ "1" in
  let code := header_text lfsr_len prefix bin_str poly_str in
  fb ← feedback_text one_indices;
  let code := code +:+ fb in
  let code := code +:+ process_text lfsr_len in
  Ok (code +:+ nl +:+ "endmodule" +:+ nl).

Definition gen_verilog (lfsr_len : Z) (one_indices : list Z)
    (prefix : string) (w : world) : world * result unit :=
  let '(bin_str, _) := poly_strings "" lfsr_len one_indices in
  let filename :=
    prefix +:+ "_lfsr_" +:+ fmt_d lfsr_len +:+ "_" +:+ bin_str +:+ ".v" in
  let w := open_w filename w in
  match module_text lfsr_len one_indices prefix with
  | Raise e => (w, Raise e)
  | Ok code =>
      let w := write_close filename code w in
      (print ("Generated file " +:+ filename) w, Ok ())
  end.

(** [main], from the parsed command line on. *)
Definition main (gen_poly prefix : string) (w : world)
  : world * result unit :=
  match parse_polynomial gen_poly with
  | Raise e => (w, Raise e)
  | Ok (lfsr_len, one_indices) => gen_verilog lfsr_len one_indices prefix w
  end.

End vgen_lfsr.

Module vgen_rand.

Section emit.

(** Python leaves the iteration order of a set unspecified; it is fixed
    while the set object is not modified.  [list_of_set ww s] is the list
    that [list(rand_out[ww])] builds from the set object at position [ww],
    whose value is [s]: its elements, each once, in some order. *)
Variable list_of_set : Z → term → list Z.

(** The assignment statements: lines 133 to 138. [len] of a set is its
    number of elements. *)
Definition assign_text (rand_out : list term) (code : string)
  : result string :=
  for_each (py_range (len rand_out))
  (λ ww code,
     s ← getitem rand_out ww;
     i0 ← getitem (list_of_set ww s) 0;
     let code := code +:+ indent +:+ "assign out[" +:+ fmt_d ww
                   +:+ "] = seed[" +:+ fmt_d i0 +:+ "]" in
     s ← getitem rand_out ww;
     code ← for_each (py_range2 1 (Z.of_nat (size s)))
              (λ ii code,
                 s ← getitem rand_out ww;
                 i ← getitem (list_of_set ww s) ii;
                 Ok (code +:+ " ^ seed[" +:+ fmt_d i +:+ "]"))
              code;
     Ok (code +:+ ";" +:+ nl))
  code.

(** The banner, the module header and the ports: lines 121 to 131. *)
Definition header_text (rand_out : list term) (lfsr_len : Z)
  (prefix suffix_str poly_str : string) : string :=
  str_repeat "/" 80 +:+ nl +:+
  "///// Generated code. Don't modify! " +:+ nl +:+
  "///// Author: Anh Tran (Andrew) " +:+ nl +:+
  "///// This module parallelly computes a " +:+ fmt_d (len rand_out)
  +:+ "-bit pseudo random output from " +:+ fmt_d lfsr_len
  +:+ "-bit input seed " +:+ nl +:+
  "///// based on the LFSR polynomial: " +:+ poly_str +:+ " " +:+ nl +:+
  str_repeat "/" 80 +:+ nl +:+
  "module " +:+ prefix +:+ "_rand_" +:+ fmt_d lfsr_len +:+ "_"
  +:+ fmt_d (len rand_out) +:+ "_" +:+ suffix_str +:+ " (" +:+ nl +:+
  indent +:+ "input [" +:+ fmt_d lfsr_len +:+ "-1:0]   seed, " +:+ nl +:+
  indent +:+ "output [" +:+ fmt_d (len rand_out) +:+ "-1:0]  out" +:+ nl +:+
  indent +:+ ");" +:+ nl +:+ nl.

(** The value of [code] when it is written, or the exception raised
    while it is built. *)
Definition module_text (rand_out : list term) (lfsr_len : Z)
  (prefix suffix_str poly_str : string) : result string :=
  let code := header_text rand_out lfsr_len prefix suffix_str poly_str in
  code ← assign_text rand_out code;
  Ok (code +:+ nl +:+ "endmodule" +:+ nl).

Definition gen_verilog (rand_out : list term) (lfsr_len : Z)
  (one_indices : list Z) (prefix suffix : string) (w : world)
  : world * result unit :=
  let '(bin_str, poly_str) := poly_strings "0b" lfsr_len one_indices in
  let poly_str := poly_str +:+ "1" in
  match (if String.eqb suffix "hex"
       then v ← py_eval bin_str; Ok (py_hex v)
       else Ok bin_str) with
  | Raise e => (w, Raise e)
  | Ok suffix_str =>
    let filename :=
      prefix +:+ "_rand_" +:+ fmt_d lfsr_len +:+ "_"
        +:+ fmt_d (len rand_out) +:+ "_" +:+ suffix_str +:+ ".v" in
    let w := open_w filename w in
    match module_text rand_out lfsr_len prefix suffix_str poly_str with
    | Raise e => (w, Raise e)
    | Ok code =>
        let w := write_close filename code w in
        (print ("Generated file " +:+ filename) w, Ok ())
    end
  end.

(** [main], from the parsed command line on. *)
Definition main (gen_poly : string) (out_width : Z)
  (prefix suffix : string) (w : world) : world * result unit :=
  match parse_polynomial gen_poly with
  | Raise e => (w, Raise e)
  | Ok (lfsr_len, one_indices) =>
    match gen_random lfsr_len one_indices out_width with
    | Raise e => (w, Raise e)
    | Ok rand_out =>
        gen_verilog rand_out lfsr_len one_indices prefix suffix w
    end
  end.

End emit.

End vgen_rand.

(** Two iteration orders.  The first is the sorted one.  The second is the
    one of CPython 3 on a small set of small non-negative integers: the hash
    of such an integer is the integer, the hash table of a small set has 8
    slots, and the set is iterated slot by slot, so that its elements come
    out by their residue modulo 8. *)
Definition ascending_order (ww : Z) (s : term) : list Z :=
  merge_sort Z.le (elements s).

Definition slot_le (a b : Z) : Prop := a mod 8 ≤ b mod 8.

#[global] Instance slot_le_dec : RelDecision slot_le.
Proof. intros a b. unfold slot_le. apply _. Defined.

Definition hash_slot_order (ww : Z) (s : term) : list Z :=
  merge_sort slot_le (elements s).

(** ** The specification's algorithm and the concrete register *)

(** A validated polynomial: what [parse_polynomial] returns. *)
Definition validated (width : Z) (taps : list Z) : Prop :=
  ∃ literal, parse_polynomial literal = Ok (width, taps).

(** The shape of a validated polynomial: the taps are listed from the highest
    one down, without repetition, and lie in [[0, width)]. *)
Definition wf_poly (width : Z) (taps : list Z) : Prop :=
  taps ≠ [] ∧ Forall (λ t, 0 ≤ t < width) taps ∧
  StronglySorted (λ a b, b < a) taps.

(** The initial snapshot: cell [i] holds the singleton [{i}]. *)
Definition spec_initial (width : Z) : list term :=
  (λ i, {[ i ]}) <$> py_range width.

(** The feedback term: the repeated symmetric difference of the cells at
    every tap index. *)
Definition spec_feedback (taps : list Z) (cells : list term) : term :=
  foldl (λ acc t, xor_two_sets acc (cells !!! Z.to_nat t)) ∅ taps.

(** The shift: cell [i] takes the previous value of cell [i-1], cell 0 is
    overwritten with the feedback term. *)
Definition spec_shift (fb : term) (cells : list term) : list term :=
  imap (λ i _, match i with O => fb | S j => cells !!! j end) cells.

(** The output terms of [n] cycles from a snapshot, cycle 0 first. *)
Fixpoint spec_schedule (taps : list Z) (n : nat) (cells : list term)
  : list term :=
  match n with
  | O => []
  | S n' =>
      let fb := spec_feedback taps cells in
      fb :: spec_schedule taps n' (spec_shift fb cells)
  end.

(** The concrete feedback bit: the XOR of the register bits at the taps. *)
Definition feedback_bit (taps : list Z) (reg : Z) : bool :=
  foldl (λ acc t, xorb acc (Z.testbit reg t)) false taps.

(** The sequential step on a [width]-bit register: shift one position toward
    the most significant end, the feedback bit enters the least significant
    cell, the most significant cell's prior value is discarded. *)
Definition lfsr_step (width : Z) (taps : list Z) (reg : Z) : Z :=
  Z.lor (Z.shiftl reg 1) (Z.b2z (feedback_bit taps reg)) mod 2 ^ width.

(** The register after [k] steps from [seed]. *)
Definition lfsr_run (width : Z) (taps : list Z) (k : nat) (seed : Z) : Z :=
  Nat.iter k (lfsr_step width taps) seed.

(** The value of a symbolic term on a concrete seed: the XOR of the seed
    bits at the indices of the term. *)
Definition eval_term (seed : Z) (t : term) : bool :=
  set_fold (λ i acc, xorb (Z.testbit seed i) acc) false t.

(** A snapshot stands for a register on a seed when each cell evaluates to
    the register bit at its index. *)
Definition stands_for (seed reg : Z) (cells : list term) : Prop :=
  ∀ (i : nat) c, cells !! i = Some c →
    eval_term seed c = Z.testbit reg (Z.of_nat i).

(** The taps a digit string denotes: the positions of its ['1'] characters,
    counted from the right end. *)
Fixpoint digit_taps (ds : string) : list Z :=
  match ds with
  | EmptyString => []
  | String c ds' =>
      if decide (c = "1"%char)
      then Z.of_nat (String.length ds') :: digit_taps ds'
      else digit_taps ds'
  end.


(** [''.join(ls)]. *)
Fixpoint str_concat (ls : list string) : string :=
  match ls with
  | [] => ""
  | l :: ls' => l +:+ str_concat ls'
  end.

(** The lines of a text, each closed by a line feed. *)
Definition unlines (ls : list string) : string :=
  str_concat ((λ l, l +:+ nl) <$> ls).

(** An XOR chain over seed bits, as [gen_verilog] writes it. *)
Definition xor_chain (indices : list Z) : string :=
  match indices with
  | [] => ""
  | i0 :: rest =>
      foldl (λ code i, code +:+ " ^ seed[" +:+ fmt_d i +:+ "]")
            ("seed[" +:+ fmt_d i0 +:+ "]") rest
  end.

(** The assignment statement that drives output bit [k] by a chain. *)
Definition assign_stmt (k : Z) (indices : list Z) : string :=
  indent +:+ "assign out[" +:+ fmt_d k +:+ "] = " +:+ xor_chain indices
    +:+ ";" +:+ nl.

(** The assignment statements of a schedule, when the set at position [k]
    is iterated in the order [list_of_set k]. *)
Definition assign_block (list_of_set : Z → term → list Z)
    (rand_out : list term) : string :=
  str_concat
    (imap (λ k s, assign_stmt (Z.of_nat k) (list_of_set (Z.of_nat k) s))
          rand_out).

(** An iteration order is admissible when it lists the elements of the set,
    each once. *)
Definition admissible (list_of_set : Z → term → list Z) : Prop :=
  ∀ ww s, list_of_set ww s ≡ₚ elements s.


(** The position that [l[i]] reads in a list of [n] items. *)
Definition norm_index (n i : Z) : Z := if 0 <=? i then i else n + i.


(** A [for] loop over the items of a list whose body may raise. *)
Fixpoint for_items {S A} (l : list A) (g : S → A → result S) (s : S)
  : result S :=
  match l with
  | [] => Ok s
  | x :: l' => s' ← g s x; for_items l' g s'
  end.

(** The snapshot after [k] cycles of the specification's algorithm. *)
Fixpoint spec_snapshot (taps : list Z) (k : nat) (cells : list term)
  : list term :=
  match k with
  | O => cells
  | S k' => spec_snapshot taps k' (spec_shift (spec_feedback taps cells) cells)
  end.

(** What cell [t] holds at cycle [k], in terms of the schedule [out]: the
    term recorded [t + 1] cycles earlier, or, when the register has not yet
    shifted that far, the seed bit that started [k] cells below. *)
Definition echo (out : list term) (k : nat) (t : Z) : term :=
  if t <? Z.of_nat k then out !!! (k - 1 - Z.to_nat t)%nat
  else {[ t - Z.of_nat k ]}.





(** ** Python primitives: lemmas *)

Lemma py_range_of_nat (n : nat) :
  py_range (Z.of_nat n) = Z.of_nat <$> seq 0 n.
Proof. unfold py_range. by rewrite Nat2Z.id. Qed.

Lemma py_range_nonpos (n : Z) : n ≤ 0 → py_range n = [].
Proof.
  intros Hn. unfold py_range.
  replace (Z.to_nat n) with O by lia. done.
Qed.

Lemma py_range_length (n : Z) : length (py_range n) = Z.to_nat n.
Proof. unfold py_range. by rewrite length_fmap, length_seq. Qed.

Lemma getitem_nat {A} (l : list A) (n : nat) (x : A) :
  l !! n = Some x → getitem l (Z.of_nat n) = Ok x.
Proof.
  intros Hx. unfold getitem, len.
  pose proof (lookup_lt_Some _ _ _ Hx) as Hlt.
  assert ((0 <=? Z.of_nat n) = true) as H0 by (apply Z.leb_le; lia).
  assert ((Z.of_nat n <? Z.of_nat (length l)) = true) as H1
    by (apply Z.ltb_lt; lia).
  cbv zeta. rewrite !H0, H1. simpl. by rewrite Nat2Z.id, Hx.
Qed.

Lemma getitem_Ok {A} (l : list A) (i : Z) (x : A) :
  0 ≤ i → l !! Z.to_nat i = Some x → getitem l i = Ok x.
Proof.
  intros Hi Hx. rewrite <- (Z2Nat.id i) by done. by apply getitem_nat.
Qed.

Lemma setitem_nat {A} (l : list A) (n : nat) (v : A) :
  (n < length l)%nat → setitem l (Z.of_nat n) v = Ok (<[n := v]> l).
Proof.
  intros Hlt. unfold setitem, len.
  assert ((0 <=? Z.of_nat n) = true) as H0 by (apply Z.leb_le; lia).
  assert ((Z.of_nat n <? Z.of_nat (length l)) = true) as H1
    by (apply Z.ltb_lt; lia).
  cbv zeta. rewrite !H0, H1. simpl. by rewrite Nat2Z.id.
Qed.

Lemma for_each_cons {S} (x : Z) (xs : list Z) (body : Z → S → result S)
    (s : S) :
  for_each (x :: xs) body s = (s' ← body x s; for_each xs body s').
Proof. done. Qed.

Lemma for_each_app {S} (xs ys : list Z) (body : Z → S → result S) (s : S) :
  for_each (xs ++ ys) body s = (s' ← for_each xs body s; for_each ys body s').
Proof.
  revert s. induction xs as [|x xs IH]; intros s; simpl; [done|].
  destruct (body x s) as [s'|e]; simpl; [apply IH|done].
Qed.

(** An index loop over a list whose body never raises is a left fold. *)
Lemma for_each_index {S A} (l : list A) (body : Z → S → result S)
    (f : S → A → S) (s : S) :
  (∀ (i : nat) x s', l !! i = Some x → body (Z.of_nat i) s' = Ok (f s' x)) →
  for_each (py_range (len l)) body s = Ok (foldl f s l).
Proof.
  unfold len. induction l as [|x l IH] using rev_ind; intros Hbody.
  { done. }
  rewrite py_range_of_nat, length_app, Nat.add_1_r, seq_S, fmap_app.
  rewrite for_each_app, <- py_range_of_nat, IH.
  - simpl. rewrite (Hbody (length l) x); [by rewrite foldl_app|].
    by rewrite lookup_app_r, Nat.sub_diag by lia.
  - intros i y s' Hy. apply Hbody. by apply lookup_app_l_Some.
Qed.

(** ** The algebra of [xor_two_sets] *)

Lemma elem_of_xor_two_sets (x : Z) (a b : term) :
  x ∈ xor_two_sets a b ↔ (x ∈ a ∧ x ∉ b) ∨ (x ∈ b ∧ x ∉ a).
Proof.
  unfold xor_two_sets.
  rewrite elem_of_difference, elem_of_union, elem_of_intersection.
  destruct (decide (x ∈ a)), (decide (x ∈ b)); tauto.
Qed.

Lemma xor_two_sets_empty_l (a : term) : xor_two_sets ∅ a = a.
Proof. unfold xor_two_sets. set_solver. Qed.

Lemma xor_two_sets_comm (a b : term) : xor_two_sets a b = xor_two_sets b a.
Proof. unfold xor_two_sets. set_solver. Qed.

Lemma xor_two_sets_self (a : term) : xor_two_sets a a = ∅.
Proof. unfold xor_two_sets. set_solver. Qed.

Lemma xor_two_sets_assoc (a b c : term) :
  xor_two_sets a (xor_two_sets b c) = xor_two_sets (xor_two_sets a b) c.
Proof.
  apply set_eq. intros x. rewrite !elem_of_xor_two_sets.
  destruct (decide (x ∈ a)), (decide (x ∈ b)), (decide (x ∈ c)); tauto.
Qed.

(** ** The loops of [gen_random] in closed form *)

(** With every tap inside the snapshot, the tap loop does not raise and
    computes the feedback term of the specification. *)
Lemma xor_taps_closed (one_indices : list Z) (cur_sets : list term) :
  Forall (λ t, 0 ≤ t < len cur_sets) one_indices →
  xor_taps one_indices cur_sets = Ok (spec_feedback one_indices cur_sets).
Proof.
  intros Hin. unfold xor_taps, spec_feedback.
  apply for_each_index. intros i t acc Ht.
  rewrite (getitem_nat _ _ _ Ht). simpl.
  rewrite Forall_forall in Hin.
  assert (0 ≤ t < len cur_sets) as Hr
    by (apply Hin; eapply list_elem_of_lookup_2; eauto).
  unfold len in Hr.
  destruct (lookup_lt_is_Some_2 cur_sets (Z.to_nat t)) as [c Hc]; [lia|].
  rewrite (getitem_Ok _ _ c) by (done || lia). simpl.
  by rewrite (list_lookup_total_correct _ _ _ Hc).
Qed.

(** The state of the shift loop once the cells [length cur - 1] down to
    [length cur - m] have been overwritten. *)
Lemma shift_sets_steps (cur : list term) (m : nat) :
  (m < length cur)%nat →
  for_each ((λ k, Z.of_nat (length cur) - 1 - Z.of_nat k) <$> seq 0 m)
    (λ ii cur_sets, v ← getitem cur_sets (ii - 1); setitem cur_sets ii v)
    cur
  = Ok (take (length cur - m) cur
          ++ drop (length cur - m - 1) (take (length cur - 1) cur)).
Proof.
  induction m as [|m IH]; intros Hm.
  { simpl. rewrite Nat.sub_0_r, firstn_all.
    rewrite drop_ge by (rewrite length_take; lia). by rewrite app_nil_r. }
  rewrite seq_S, fmap_app, for_each_app, IH by lia. simpl.
  set (j := (length cur - S m)%nat).
  replace (length cur - m)%nat with (S j) by lia.
  replace (S j - 1)%nat with j by lia.
  replace (Z.of_nat (length cur) - 1 - Z.of_nat m) with (Z.of_nat j) by lia.
  destruct (lookup_lt_is_Some_2 cur j) as [cj Hcj]; [lia|].
  assert (j = S (j - 1))%nat as Hj by lia.
  destruct (lookup_lt_is_Some_2 cur (j - 1)) as [v Hv]; [lia|].
  replace (Z.of_nat j - 1) with (Z.of_nat (j - 1)) by lia.
  rewrite (getitem_nat _ _ v).
  2:{ rewrite lookup_app_l by (rewrite length_take; lia).
      rewrite lookup_take_lt by lia. done. }
  simpl. rewrite setitem_nat.
  2:{ rewrite length_app, length_take. lia. }
  f_equal.
  rewrite insert_app_l by (rewrite length_take; lia).
  rewrite (take_S_r _ _ _ Hcj).
  rewrite insert_app_r_alt by (rewrite length_take; lia).
  rewrite length_take.
  replace (j - j `min` length cur)%nat with O by lia. simpl.
  rewrite <- app_assoc. f_equal. simpl.
  rewrite (drop_S _ v (j - 1)).
  2:{ rewrite lookup_take_lt by lia. done. }
  by rewrite <- Hj.
Qed.

Lemma shift_sets_closed (c0 : term) (rest : list term) :
  shift_sets (len (c0 :: rest)) (c0 :: rest)
  = Ok (c0 :: take (length rest) (c0 :: rest)).
Proof.
  unfold shift_sets, py_range_down, len.
  replace (Z.to_nat (Z.of_nat (length (c0 :: rest)) - 1 - 0))
    with (length rest) by (simpl; lia).
  rewrite (shift_sets_steps (c0 :: rest) (length rest)) by (simpl; lia).
  f_equal. simpl length.
  replace (S (length rest) - length rest)%nat with 1%nat by lia.
  replace (S (length rest) - 1)%nat with (length rest) by lia.
  done.
Qed.

Lemma spec_shift_closed (fb c0 : term) (rest : list term) :
  spec_shift fb (c0 :: rest) = fb :: take (length rest) (c0 :: rest).
Proof.
  unfold spec_shift. apply list_eq. intros [|i].
  { done. }
  rewrite list_lookup_imap. simpl.
  destruct (decide (i < length rest)%nat) as [Hi|Hi].
  - destruct (lookup_lt_is_Some_2 rest i) as [x Hx]; [done|].
    rewrite Hx. simpl. rewrite lookup_take_lt by done.
    destruct (lookup_lt_is_Some_2 (c0 :: rest) i) as [y Hy]; [simpl; lia|].
    by rewrite (list_lookup_total_correct _ _ _ Hy).
  - rewrite lookup_ge_None_2 by lia.
    by rewrite lookup_take_ge by lia.
Qed.

Lemma spec_shift_length (fb : term) (cells : list term) :
  length (spec_shift fb cells) = length cells.
Proof. unfold spec_shift. by rewrite length_imap. Qed.

(** One cycle of [gen_random] on a snapshot of [lfsr_len] cells is one cycle
    of the specification's algorithm. *)
Lemma gen_random_body_closed (lfsr_len : Z) (one_indices : list Z)
    (cur_sets rand_out : list term) :
  0 < lfsr_len → len cur_sets = lfsr_len →
  Forall (λ t, 0 ≤ t < lfsr_len) one_indices →
  gen_random_body lfsr_len one_indices (cur_sets, rand_out)
  = Ok (spec_shift (spec_feedback one_indices cur_sets) cur_sets,
        rand_out ++ [spec_feedback one_indices cur_sets]).
Proof.
  intros Hpos Hlen Hin. unfold gen_random_body.
  rewrite xor_taps_closed by (by rewrite Hlen). simpl.
  destruct cur_sets as [|c0 rest]; [unfold len in Hlen; simpl in Hlen; lia|].
  rewrite <- Hlen, shift_sets_closed. simpl.
  by rewrite spec_shift_closed.
Qed.

(** The outer loop, from any snapshot of [lfsr_len] cells. *)
Lemma gen_random_loop_closed (lfsr_len : Z) (one_indices : list Z)
    (xs : list Z) (cur_sets rand_out : list term) :
  0 < lfsr_len → len cur_sets = lfsr_len →
  Forall (λ t, 0 ≤ t < lfsr_len) one_indices →
  ∃ cur_sets',
    for_each xs (λ _ st, gen_random_body lfsr_len one_indices st)
      (cur_sets, rand_out)
    = Ok (cur_sets',
          rand_out ++ spec_schedule one_indices (length xs) cur_sets).
Proof.
  intros Hpos Hlen Hin. revert cur_sets rand_out Hlen.
  induction xs as [|x xs IH]; intros cur_sets rand_out Hlen.
  { exists cur_sets. simpl. by rewrite app_nil_r. }
  rewrite for_each_cons, gen_random_body_closed by done.
  destruct (IH (spec_shift (spec_feedback one_indices cur_sets) cur_sets)
              (rand_out ++ [spec_feedback one_indices cur_sets]))
    as [cur' Hcur'].
  { unfold len in *. by rewrite spec_shift_length. }
  exists cur'. simpl. simpl in Hcur'. by rewrite Hcur', <- app_assoc.
Qed.

Lemma spec_initial_len (width : Z) : 0 ≤ width → len (spec_initial width) = width.
Proof.
  intros Hw. unfold len, spec_initial.
  rewrite length_fmap, py_range_length. lia.
Qed.

(** [gen_random] does not raise on a well-formed polynomial and returns the
    schedule of the specification. *)
Lemma gen_random_closed (lfsr_len : Z) (one_indices : list Z) (rand_wd : Z) :
  0 < lfsr_len → Forall (λ t, 0 ≤ t < lfsr_len) one_indices →
  gen_random lfsr_len one_indices rand_wd
  = Ok (spec_schedule one_indices (Z.to_nat rand_wd) (spec_initial lfsr_len)).
Proof.
  intros Hpos Hin. unfold gen_random.
  destruct (gen_random_loop_closed lfsr_len one_indices (py_range rand_wd)
              (spec_initial lfsr_len) [] Hpos) as [cur' Hcur']; [|done|].
  { apply spec_initial_len. lia. }
  unfold spec_initial in Hcur' at 1. rewrite Hcur'. simpl.
  by rewrite py_range_length.
Qed.

Lemma spec_schedule_length (taps : list Z) (n : nat) (cells : list term) :
  length (spec_schedule taps n cells) = n.
Proof.
  revert cells. induction n as [|n IH]; intros cells; simpl; [done|].
  by rewrite IH.
Qed.

(** ** Symbolic terms on a concrete seed *)

Lemma eval_term_empty (seed : Z) : eval_term seed ∅ = false.
Proof. unfold eval_term. by rewrite set_fold_empty. Qed.

Lemma eval_term_singleton (seed i : Z) :
  eval_term seed {[ i ]} = Z.testbit seed i.
Proof. unfold eval_term. rewrite set_fold_singleton. apply xorb_false_r. Qed.

Lemma eval_term_insert (seed x : Z) (t : term) :
  x ∉ t →
  eval_term seed ({[ x ]} ∪ t) = xorb (Z.testbit seed x) (eval_term seed t).
Proof.
  intros Hx. unfold eval_term.
  rewrite (set_fold_disj_union_strong (=)).
  - rewrite set_fold_singleton.
    apply (set_fold_comm_acc _ (xorb (Z.testbit seed x))).
    intros i b. by rewrite <- !xorb_assoc, (xorb_comm (Z.testbit seed i)).
  - solve_proper.
  - intros i j b _ _ _.
    by rewrite <- !xorb_assoc, (xorb_comm (Z.testbit seed i)).
  - set_solver.
Qed.

(** Evaluation turns the symmetric difference into the XOR of bits. *)
Lemma eval_term_xor (seed : Z) (a b : term) :
  eval_term seed (xor_two_sets a b)
  = xorb (eval_term seed a) (eval_term seed b).
Proof.
  revert a. apply set_ind_L.
  - by rewrite xor_two_sets_empty_l, eval_term_empty.
  - intros x a Hx IH. rewrite (eval_term_insert _ _ _ Hx).
    destruct (decide (x ∈ b)) as [Hb|Hb].
    + assert (xor_two_sets a b
              = {[ x ]} ∪ xor_two_sets ({[ x ]} ∪ a) b) as Heq.
      { apply set_eq. intros y.
        rewrite elem_of_union, !elem_of_xor_two_sets, elem_of_union,
          elem_of_singleton.
        destruct (decide (y = x)) as [->|]; tauto. }
      rewrite Heq in IH. rewrite eval_term_insert in IH.
      2:{ rewrite elem_of_xor_two_sets, elem_of_union, elem_of_singleton.
          tauto. }
      rewrite xorb_assoc, <- IH, <- xorb_assoc, xorb_nilpotent.
      by rewrite xorb_false_l.
    + assert (xor_two_sets ({[ x ]} ∪ a) b
              = {[ x ]} ∪ xor_two_sets a b) as Heq.
      { apply set_eq. intros y.
        rewrite elem_of_union, !elem_of_xor_two_sets, elem_of_union,
          elem_of_singleton.
        destruct (decide (y = x)) as [->|]; tauto. }
      rewrite Heq, eval_term_insert, IH, xorb_assoc; [done|].
      rewrite elem_of_xor_two_sets. tauto.
Qed.

(** The symbolic feedback term evaluates to the concrete feedback bit when
    every cell of the snapshot evaluates to the register bit it stands for. *)
Lemma eval_spec_feedback (seed reg : Z) (taps : list Z) (cells : list term) :
  Forall (λ t, 0 ≤ t < len cells) taps →
  (∀ (i : nat) c, cells !! i = Some c →
     eval_term seed c = Z.testbit reg (Z.of_nat i)) →
  eval_term seed (spec_feedback taps cells) = feedback_bit taps reg.
Proof.
  intros Hin Hcells. unfold spec_feedback, feedback_bit.
  rewrite <- (eval_term_empty seed). generalize (∅ : term) as acc.
  induction Hin as [|t taps Ht _ IH]; intros acc; simpl; [done|].
  rewrite IH, eval_term_xor. do 2 f_equal.
  unfold len in Ht.
  destruct (lookup_lt_is_Some_2 cells (Z.to_nat t)) as [c Hc]; [lia|].
  rewrite (list_lookup_total_correct _ _ _ Hc), (Hcells _ _ Hc).
  by rewrite Z2Nat.id by lia.
Qed.

Lemma testbit_b2z (b : bool) (i : Z) :
  Z.testbit (Z.b2z b) i = b && (i =? 0).
Proof. destruct b; [by destruct i|apply Z.testbit_0_l]. Qed.

(** The bits of the register after one sequential step. *)
Lemma lfsr_step_bit0 (width : Z) (taps : list Z) (reg : Z) :
  0 < width →
  Z.testbit (lfsr_step width taps reg) 0 = feedback_bit taps reg.
Proof.
  intros Hw. unfold lfsr_step.
  rewrite Z.mod_pow2_bits_low by lia.
  rewrite Z.lor_spec, Z.shiftl_spec_low by lia.
  by rewrite testbit_b2z, andb_true_r.
Qed.

Lemma lfsr_step_bit_succ (width : Z) (taps : list Z) (reg i : Z) :
  0 < i < width →
  Z.testbit (lfsr_step width taps reg) i = Z.testbit reg (i - 1).
Proof.
  intros Hi. unfold lfsr_step.
  rewrite Z.mod_pow2_bits_low by lia.
  rewrite Z.lor_spec, Z.shiftl_spec by lia.
  rewrite testbit_b2z.
  replace (i =? 0) with false by (symmetry; apply Z.eqb_neq; lia).
  by rewrite andb_false_r, orb_false_r.
Qed.

Lemma spec_initial_lookup (width : Z) (i : nat) (c : term) :
  spec_initial width !! i = Some c → c = {[ Z.of_nat i ]}.
Proof.
  unfold spec_initial, py_range. rewrite !list_lookup_fmap.
  intros Hc. destruct (seq 0 (Z.to_nat width) !! i) as [j|] eqn:Hj;
    simpl in Hc; [|done].
  apply lookup_seq in Hj as [-> _]. by injection Hc as <-.
Qed.

Lemma stands_for_initial (seed width : Z) :
  stands_for seed seed (spec_initial width).
Proof.
  intros i c Hc. apply spec_initial_lookup in Hc as ->.
  apply eval_term_singleton.
Qed.

Lemma stands_for_shift (seed reg width : Z) (taps : list Z)
    (cells : list term) :
  0 < width → len cells = width →
  Forall (λ t, 0 ≤ t < width) taps →
  stands_for seed reg cells →
  stands_for seed (lfsr_step width taps reg)
    (spec_shift (spec_feedback taps cells) cells).
Proof.
  intros Hw Hlen Hin Hst.
  destruct cells as [|c0 rest]; [unfold len in Hlen; simpl in Hlen; lia|].
  rewrite spec_shift_closed. intros [|i] c Hc.
  - injection Hc as <-. rewrite lfsr_step_bit0 by done.
    apply eval_spec_feedback; [by rewrite Hlen|done].
  - simpl in Hc. pose proof (lookup_lt_Some _ _ _ Hc) as Hlt.
    rewrite length_take in Hlt.
    rewrite lookup_take_lt in Hc by lia.
    rewrite lfsr_step_bit_succ.
    + replace (Z.of_nat (S i) - 1) with (Z.of_nat i) by lia. by apply Hst.
    + unfold len in Hlen. simpl in Hlen. lia.
Qed.

(** The symbolic schedule and the concrete simulation agree at every cycle. *)
Lemma spec_schedule_eval (seed width : Z) (taps : list Z) (n : nat) :
  0 < width → Forall (λ t, 0 ≤ t < width) taps →
  ∀ (cells : list term) (reg : Z) (k : nat) (t : term),
    len cells = width → stands_for seed reg cells →
    spec_schedule taps n cells !! k = Some t →
    eval_term seed t = feedback_bit taps (lfsr_run width taps k reg).
Proof.
  intros Hw Hin. induction n as [|n IH]; intros cells reg k t Hlen Hst Hk.
  { done. }
  destruct k as [|k]; simpl in Hk.
  - injection Hk as <-. apply eval_spec_feedback; [by rewrite Hlen|done].
  - unfold lfsr_run. rewrite Nat.iter_succ_r.
    apply (IH (spec_shift (spec_feedback taps cells) cells)); [| |done].
    + unfold len in *. by rewrite spec_shift_length.
    + by apply stands_for_shift.
Qed.

(** ** The parser *)

Lemma string_length_app (s1 s2 : string) :
  String.length (s1 +:+ s2) = (String.length s1 + String.length s2)%nat.
Proof. induction s1 as [|c s1 IH]; simpl; [done|]. by rewrite IH. Qed.

Lemma string_get_app_r (s1 s2 : string) (c : ascii) :
  String.get (String.length s1) (s1 +:+ String c s2) = Some c.
Proof. induction s1 as [|c1 s1 IH]; simpl; [done|]. apply IH. Qed.

Lemma string_app_cons (c : ascii) (s1 s2 : string) :
  String c s1 +:+ s2 = String c (s1 +:+ s2).
Proof. done. Qed.

Lemma string_app_assoc (s1 s2 s3 : string) :
  (s1 +:+ s2) +:+ s3 = s1 +:+ (s2 +:+ s3).
Proof.
  induction s1 as [|c s1 IH]; [done|]. by rewrite !string_app_cons, IH.
Qed.

(** The tap loop of [parse_polynomial], started in the middle of the digit
    string. *)
Lemma tap_loop_from (pre ds : string) (acc : list Z) :
  foldl (λ one_indices ii,
           if decide (String.get (Z.to_nat ii) (pre +:+ ds) = Some "1"%char)
           then one_indices
                  ++ [Z.of_nat (String.length (pre +:+ ds)) - 1 - ii]
           else one_indices)
        acc (Z.of_nat <$> seq (String.length pre) (String.length ds))
  = acc ++ digit_taps ds.
Proof.
  revert pre acc. induction ds as [|c ds IH]; intros pre acc.
  { simpl. by rewrite app_nil_r. }
  simpl seq. rewrite fmap_cons. simpl foldl.
  rewrite Nat2Z.id, string_get_app_r.
  assert (pre +:+ String c ds = (pre +:+ String c "") +:+ ds) as Heq
    by (by rewrite string_app_assoc).
  assert (S (String.length pre) = String.length (pre +:+ String c ""))
    as Hlen by (rewrite string_length_app; simpl; lia).
  rewrite Heq, Hlen, IH. simpl digit_taps.
  destruct (decide (Some c = Some "1"%char)) as [Hc|Hc];
    destruct (decide (c = "1"%char)) as [Hc'|Hc']; try congruence.
  rewrite <- app_assoc. simpl. do 3 f_equal.
  rewrite !string_length_app. simpl. lia.
Qed.

Lemma tap_loop_closed (bin_str : string) :
  foldl (λ one_indices ii,
           if decide (String.get (Z.to_nat ii) bin_str = Some "1"%char)
           then one_indices
                  ++ [Z.of_nat (String.length bin_str) - 1 - ii]
           else one_indices)
        [] (py_range (Z.of_nat (String.length bin_str)))
  = digit_taps bin_str.
Proof. rewrite py_range_of_nat. apply (tap_loop_from "" bin_str []). Qed.

Lemma digit_taps_bound (ds : string) :
  Forall (λ t, 0 ≤ t < Z.of_nat (String.length ds)) (digit_taps ds).
Proof.
  induction ds as [|c ds IH]; simpl; [constructor|].
  assert (Forall (λ t, 0 ≤ t < Z.of_nat (S (String.length ds)))
            (digit_taps ds)) as IH'.
  { eapply Forall_impl; [exact IH|]. simpl. intros; lia. }
  destruct (decide (c = "1"%char)); [constructor; [lia|done]|done].
Qed.

Lemma digit_taps_sorted (ds : string) :
  StronglySorted (λ a b, b < a) (digit_taps ds).
Proof.
  induction ds as [|c ds IH]; simpl; [constructor|].
  destruct (decide (c = "1"%char)); [|done].
  constructor; [done|].
  eapply Forall_impl; [apply digit_taps_bound|]. simpl. intros; lia.
Qed.

(** A digit string without taps has only zero digits. *)
Lemma digit_taps_nil_value (ds : string) (acc v : Z) :
  digit_taps ds = [] → digits_value bin_digit 2 acc ds = Some v →
  v = acc * 2 ^ Z.of_nat (String.length ds).
Proof.
  revert acc. induction ds as [|c ds IH]; intros acc Hnil Hv.
  { simpl in *. injection Hv as <-. lia. }
  simpl in Hnil, Hv. destruct (decide (c = "1"%char)) as [->|Hc]; [done|].
  destruct (bin_digit c) as [d|] eqn:Hd; [|done].
  assert (d = 0) as ->.
  { unfold bin_digit in Hd.
    destruct c as [[] [] [] [] [] [] [] []]; simpl in Hd; congruence. }
  rewrite (IH _ Hnil Hv). simpl String.length.
  rewrite Nat2Z.inj_succ, Z.pow_succ_r by lia. lia.
Qed.

Lemma digits_value_app (digit : ascii → option Z) (base acc : Z)
    (s1 s2 : string) :
  digits_value digit base acc (s1 +:+ s2)
  = digits_value digit base acc s1 ≫= λ v, digits_value digit base v s2.
Proof.
  revert acc. induction s1 as [|c s1 IH]; intros acc; simpl; [done|].
  destruct (digit c); [apply IH|done].
Qed.

Lemma bin_digits_value (p : positive) :
  digits_value bin_digit 2 0 (bin_digits p) = Some (Z.pos p).
Proof.
  induction p as [p IH|p IH|]; simpl; [| |done];
    rewrite digits_value_app, IH; simpl; f_equal; lia.
Qed.

Lemma bin_digits_head (p : positive) :
  ∃ rest, bin_digits p = String "1" rest.
Proof.
  induction p as [p [rest IH]|p [rest IH]|]; simpl.
  - exists (rest +:+ "1"). by rewrite IH.
  - exists (rest +:+ "0"). by rewrite IH.
  - by exists "".
Qed.

Lemma prefix_cons (a b : ascii) (s1 s2 : string) :
  String.prefix (String a s1) (String b s2)
  = if ascii_dec a b then String.prefix s1 s2 else false.
Proof. done. Qed.

Lemma startswith_cases (s : string) :
  (∃ ds, s = String "0" (String "b" ds)) ∨
  (∃ ds, s = String "0" (String "x" ds)) ∨
  (startswith s "0b" = false ∧ startswith s "0x" = false).
Proof.
  unfold startswith. destruct s as [|c1 [|c2 ds]]; [by auto| |].
  - rewrite !prefix_cons. destruct (ascii_dec "0" c1); by auto.
  - rewrite !prefix_cons.
    destruct (ascii_dec "0" c1) as [<-|]; [|by auto].
    destruct (ascii_dec "b" c2) as [<-|]; [by eauto|].
    destruct (ascii_dec "x" c2) as [<-|]; by eauto.
Qed.

Lemma prefix_nil (s : string) : String.prefix "" s = true.
Proof. by destruct s. Qed.

Lemma startswith_2 (a b c d : ascii) (ds : string) :
  startswith (String c (String d ds)) (String a (String b ""))
  = bool_decide (a = c ∧ b = d).
Proof.
  unfold startswith. rewrite prefix_cons.
  destruct (ascii_dec a c) as [->|Hac].
  - rewrite prefix_cons. destruct (ascii_dec b d) as [->|Hbd].
    + rewrite prefix_nil. symmetry. by apply bool_decide_eq_true.
    + symmetry. apply bool_decide_eq_false. tauto.
  - symmetry. apply bool_decide_eq_false. tauto.
Qed.

Lemma parse_polynomial_noprefix (s : string) :
  startswith s "0b" = false → startswith s "0x" = false →
  parse_polynomial s = Raise AssertionError_prefix.
Proof. intros Hb Hx. unfold parse_polynomial. by rewrite Hb, Hx. Qed.

Lemma parse_polynomial_bin (ds : string) :
  parse_polynomial (String "0" (String "b" ds))
  = (v ← py_eval (String "0" (String "b" ds));
     if v =? 0 then Raise AssertionError_zero
     else Ok (Z.of_nat (String.length ds), digit_taps ds)).
Proof.
  unfold parse_polynomial.
  rewrite !startswith_2.
  rewrite (bool_decide_eq_true_2 ("0"%char = "0"%char ∧ "b"%char = "b"%char))
    by done.
  rewrite (bool_decide_eq_false_2 ("0"%char = "0"%char ∧ "x"%char = "b"%char))
    by (intros [_ ?]; discriminate).
  cbn [negb orb mbind result_bind slice_from].
  by rewrite tap_loop_closed.
Qed.

Lemma parse_polynomial_hex (ds : string) :
  parse_polynomial (String "0" (String "x" ds))
  = (v ← py_eval (String "0" (String "x" ds));
     v' ← py_eval (py_bin v);
     if v' =? 0 then Raise AssertionError_zero
     else Ok (Z.of_nat (String.length (slice_from 2 (py_bin v))),
              digit_taps (slice_from 2 (py_bin v)))).
Proof.
  unfold parse_polynomial.
  rewrite !startswith_2.
  rewrite (bool_decide_eq_true_2 ("0"%char = "0"%char ∧ "x"%char = "x"%char))
    by done.
  rewrite (bool_decide_eq_false_2 ("0"%char = "0"%char ∧ "b"%char = "x"%char))
    by (intros [_ ?]; discriminate).
  cbn [negb orb].
  remember (py_eval (String "0" (String "x" ds))) as r eqn:Hr.
  destruct r as [v|e]; [|done]. cbn [mbind result_bind].
  destruct (py_eval (py_bin v)) as [v'|e]; [|done]. cbn [mbind result_bind].
  destruct (v' =? 0); [done|]. by rewrite tap_loop_closed.
Qed.

Lemma hex_digit_nonneg (c : ascii) (d : Z) : hex_digit c = Some d → 0 ≤ d.
Proof.
  unfold hex_digit. intros Hd.
  repeat match type of Hd with
         | (if ?b then _ else _) = _ => destruct b eqn:?
         end; [| | |done]; injection Hd as <-;
    match goal with
    | H : (_ <=? _) && _ = true |- _ =>
        apply andb_prop in H as [?%Z.leb_le _]; lia
    end.
Qed.

Lemma bin_digit_nonneg (c : ascii) (d : Z) : bin_digit c = Some d → 0 ≤ d.
Proof.
  unfold bin_digit.
  destruct c as [[] [] [] [] [] [] [] []]; simpl; intros Hd;
    try discriminate; injection Hd as <-; lia.
Qed.

Lemma digits_value_nonneg (digit : ascii → option Z) (base acc v : Z)
    (ds : string) :
  (∀ c d, digit c = Some d → 0 ≤ d) → 0 ≤ base → 0 ≤ acc →
  digits_value digit base acc ds = Some v → 0 ≤ v.
Proof.
  intros Hdigit Hbase. revert acc.
  induction ds as [|c ds IH]; intros acc Hacc Hv; simpl in Hv.
  { injection Hv as <-. done. }
  destruct (digit c) as [d|] eqn:Hd; [|done].
  apply (IH (acc * base + d)); [|done].
  pose proof (Hdigit _ _ Hd). nia.
Qed.

(** A literal in the modelled fragment has a non-negative value and one of
    the two prefixes. *)
Lemma py_eval_Ok (s : string) (v : Z) :
  py_eval s = Ok v →
  0 ≤ v ∧ ((∃ ds, s = String "0" (String "b" ds)) ∨
           (∃ ds, s = String "0" (String "x" ds))).
Proof.
  unfold py_eval. intros Hv.
  destruct s as [|c1 s1]; [done|].
  destruct (decide (c1 = "0"%char)) as [->|Hc1].
  2:{ destruct c1 as [[] [] [] [] [] [] [] []]; try discriminate.
      by destruct Hc1. }
  destruct s1 as [|c2 s2]; [done|].
  destruct (decide (c2 = "b"%char)) as [->|Hb].
  { destruct s2 as [|c3 ds]; [done|].
    destruct (digits_value bin_digit 2 0 (String c3 ds)) as [v'|] eqn:Hd;
      [|done].
    injection Hv as <-. split; [|by eauto].
    eapply digits_value_nonneg; [apply bin_digit_nonneg| | |exact Hd]; lia. }
  destruct (decide (c2 = "x"%char)) as [->|Hx].
  { destruct s2 as [|c3 ds]; [done|].
    destruct (digits_value hex_digit 16 0 (String c3 ds)) as [v'|] eqn:Hd;
      [|done].
    injection Hv as <-. split; [|by eauto].
    eapply digits_value_nonneg; [apply hex_digit_nonneg| | |exact Hd]; lia. }
  destruct c2 as [[] [] [] [] [] [] [] []]; try discriminate;
    by (destruct Hb || destruct Hx).
Qed.

Lemma py_eval_py_bin (p : positive) : py_eval (py_bin (Z.pos p)) = Ok (Z.pos p).
Proof.
  unfold py_bin. destruct (bin_digits_head p) as [rest Hrest].
  pose proof (bin_digits_value p) as Hv. rewrite Hrest in *.
  change ("0b" +:+ String "1" rest)
    with (String "0" (String "b" (String "1" rest))).
  unfold py_eval. by rewrite Hv.
Qed.

Lemma py_eval_bin_digits (ds : string) (v : Z) :
  py_eval (String "0" (String "b" ds)) = Ok v →
  digits_value bin_digit 2 0 ds = Some v.
Proof.
  unfold py_eval. destruct ds as [|c ds]; [done|].
  destruct (digits_value bin_digit 2 0 (String c ds)); [|done].
  by intros [= ->].
Qed.

(** What an accepted literal looks like: its binary digit string [ds] gives
    the width and the taps, and has a non-zero value; a hexadecimal literal
    is first rewritten to binary digits that start with ['1']. *)
Lemma parse_polynomial_Ok_inv (s : string) (width : Z) (taps : list Z) :
  parse_polynomial s = Ok (width, taps) →
  ∃ ds v,
    width = Z.of_nat (String.length ds) ∧ taps = digit_taps ds ∧
    digits_value bin_digit 2 0 ds = Some v ∧ v ≠ 0 ∧
    (s = String "0" (String "b" ds) ∨
     ((∃ hs, s = String "0" (String "x" hs)) ∧
      ∃ rest, ds = String "1" rest)).
Proof.
  intros Hp. destruct (startswith_cases s) as [[ds ->]|[[hs ->]|[Hb Hx]]].
  - rewrite parse_polynomial_bin in Hp.
    destruct (py_eval (String "0" (String "b" ds))) as [v|e] eqn:Hv; [|done].
    cbn [mbind result_bind] in Hp.
    destruct (v =? 0) eqn:Hz; [done|]. injection Hp as <- <-.
    exists ds, v. apply py_eval_bin_digits in Hv.
    apply Z.eqb_neq in Hz. repeat split; try done. by left.
  - rewrite parse_polynomial_hex in Hp.
    destruct (py_eval (String "0" (String "x" hs))) as [v|e] eqn:Hv; [|done].
    cbn [mbind result_bind] in Hp.
    apply py_eval_Ok in Hv as [Hv _].
    destruct v as [|p|p]; [done| |lia].
    rewrite py_eval_py_bin in Hp. cbn [mbind result_bind] in Hp.
    change (Z.pos p =? 0) with false in Hp. cbn iota in Hp.
    change (slice_from 2 (py_bin (Z.pos p))) with (bin_digits p) in Hp.
    injection Hp as <- <-. exists (bin_digits p), (Z.pos p).
    split; [done|]. split; [done|]. split; [apply bin_digits_value|].
    split; [done|]. right. split; [by eauto|apply bin_digits_head].
  - by rewrite parse_polynomial_noprefix in Hp.
Qed.

(** The parser returns well-formed polynomials only. *)
Lemma parse_polynomial_wf (s : string) (width : Z) (taps : list Z) :
  parse_polynomial s = Ok (width, taps) → wf_poly width taps.
Proof.
  intros Hp.
  destruct (parse_polynomial_Ok_inv _ _ _ Hp)
    as (ds & v & -> & -> & Hv & Hnz & _).
  split; [|split].
  - intros Hnil. pose proof (digit_taps_nil_value _ _ _ Hnil Hv). lia.
  - apply digit_taps_bound.
  - apply digit_taps_sorted.
Qed.

Lemma validated_wf (width : Z) (taps : list Z) :
  validated width taps → wf_poly width taps.
Proof. intros [s Hs]. by eapply parse_polynomial_wf. Qed.

Lemma wf_poly_range (width : Z) (taps : list Z) :
  wf_poly width taps → 0 < width ∧ Forall (λ t, 0 ≤ t < width) taps.
Proof.
  intros (Hne & Hin & _). split; [|done].
  destruct taps as [|t taps]; [done|].
  apply Forall_cons in Hin as [? _]. lia.
Qed.

Lemma spec_initial_lookup_lt (width t : Z) :
  0 ≤ t < width → spec_initial width !!! Z.to_nat t = ({[ t ]} : term).
Proof.
  intros Ht. apply list_lookup_total_correct.
  unfold spec_initial, py_range. rewrite !list_lookup_fmap.
  rewrite lookup_seq_lt by lia. simpl. by rewrite Z2Nat.id by lia.
Qed.

(** On the initial snapshot the feedback term collects the taps. *)
Lemma spec_feedback_initial_from (width : Z) (taps : list Z) (acc : term) :
  Forall (λ t, 0 ≤ t < width) taps →
  StronglySorted (λ a b, b < a) taps →
  (∀ t, t ∈ taps → t ∉ acc) →
  foldl (λ acc t, xor_two_sets acc (spec_initial width !!! Z.to_nat t))
    acc taps
  = acc ∪ list_to_set taps.
Proof.
  intros Hin Hs. revert acc.
  induction Hs as [|t rest Hs IH Hlt]; intros acc Hacc; simpl.
  { set_solver. }
  apply Forall_cons in Hin as [Ht Hin].
  rewrite spec_initial_lookup_lt by done.
  assert (t ∉ acc) as Hta by (apply Hacc; left).
  assert (xor_two_sets acc {[ t ]} = acc ∪ {[ t ]}) as ->.
  { apply set_eq. intros y.
    rewrite elem_of_xor_two_sets, elem_of_union, elem_of_singleton.
    destruct (decide (y = t)) as [->|]; tauto. }
  rewrite IH; [set_solver|done|].
  intros t' Ht'. rewrite elem_of_union, elem_of_singleton.
  rewrite Forall_forall in Hlt. pose proof (Hlt _ Ht').
  assert (t' ∉ acc) by (apply Hacc; by right).
  intros [?|?]; [done|lia].
Qed.

Lemma spec_feedback_initial (width : Z) (taps : list Z) :
  wf_poly width taps →
  spec_feedback taps (spec_initial width) = list_to_set taps.
Proof.
  intros (_ & Hin & Hs). unfold spec_feedback.
  rewrite spec_feedback_initial_from by (done || set_solver). set_solver.
Qed.



(** ** The concrete register: every feedback bit can be made 1 *)

Lemma foldl_xorb (f : Z → bool) (acc : bool) (l : list Z) :
  foldl (λ acc t, xorb acc (f t)) acc l
  = xorb acc (foldl (λ acc t, xorb acc (f t)) false l).
Proof.
  revert acc. induction l as [|t l IH]; intros acc; simpl.
  { by rewrite xorb_false_r. }
  rewrite (IH (xorb acc (f t))), (IH (f t)). apply xorb_assoc.
Qed.

Lemma feedback_bit_cons (t : Z) (taps : list Z) (reg : Z) :
  feedback_bit (t :: taps) reg
  = xorb (Z.testbit reg t) (feedback_bit taps reg).
Proof.
  unfold feedback_bit. simpl. by rewrite foldl_xorb.
Qed.

Lemma feedback_bit_ext (taps : list Z) (reg reg' : Z) :
  Forall (λ t, Z.testbit reg t = Z.testbit reg' t) taps →
  feedback_bit taps reg = feedback_bit taps reg'.
Proof.
  induction 1 as [|t taps Ht _ IH]; [done|].
  by rewrite !feedback_bit_cons, Ht, IH.
Qed.

Lemma feedback_bit_false (taps : list Z) (reg : Z) :
  Forall (λ t, Z.testbit reg t = false) taps → feedback_bit taps reg = false.
Proof.
  induction 1 as [|t taps Ht _ IH]; [done|].
  by rewrite feedback_bit_cons, Ht, IH.
Qed.

Lemma testbit_above (n reg i : Z) :
  0 ≤ reg < 2 ^ n → n ≤ i → Z.testbit reg i = false.
Proof.
  intros Hr Hi. destruct (decide (0 ≤ n)) as [Hn|Hn].
  - rewrite <- (Z.mod_small reg (2 ^ n)) by done.
    apply Z.mod_pow2_bits_high. lia.
  - rewrite Z.pow_neg_r in Hr by lia. lia.
Qed.

Section low_bits.

(** The highest tap [m] and the taps below it. *)
Variables (m : Z) (rest : list Z).
Hypothesis m_nonneg : 0 ≤ m.
Hypothesis rest_below : Forall (λ t, 0 ≤ t < m) rest.

Lemma feedback_bit_mod (reg : Z) :
  feedback_bit (m :: rest) (reg mod 2 ^ (m + 1))
  = feedback_bit (m :: rest) reg.
Proof.
  apply feedback_bit_ext. constructor.
  - apply Z.mod_pow2_bits_low. lia.
  - eapply Forall_impl; [exact rest_below|]. simpl. intros t Ht.
    apply Z.mod_pow2_bits_low. lia.
Qed.

(** The low [m+1] bits of the register evolve on their own. *)
Lemma lfsr_step_mod (width reg : Z) :
  m < width →
  lfsr_step width (m :: rest) reg mod 2 ^ (m + 1)
  = lfsr_step (m + 1) (m :: rest) (reg mod 2 ^ (m + 1)).
Proof.
  intros Hw. apply Z.bits_inj'. intros n Hn.
  destruct (decide (n < m + 1)) as [Hlt|Hge].
  - rewrite Z.mod_pow2_bits_low by lia.
    destruct (decide (n = 0)) as [->|Hn0].
    + rewrite !lfsr_step_bit0 by lia. by rewrite feedback_bit_mod.
    + rewrite !lfsr_step_bit_succ by lia.
      by rewrite Z.mod_pow2_bits_low by lia.
  - rewrite Z.mod_pow2_bits_high by lia.
    unfold lfsr_step. by rewrite Z.mod_pow2_bits_high by lia.
Qed.

Lemma lfsr_run_mod (width : Z) (k : nat) (seed : Z) :
  m < width →
  lfsr_run width (m :: rest) k seed mod 2 ^ (m + 1)
  = lfsr_run (m + 1) (m :: rest) k (seed mod 2 ^ (m + 1)).
Proof.
  intros Hw. unfold lfsr_run. induction k as [|k IH]; simpl; [done|].
  by rewrite lfsr_step_mod, IH.
Qed.

(** On [m+1] bits the step is onto: every register has a predecessor. *)
Lemma lfsr_step_preimage (reg' : Z) :
  0 ≤ reg' < 2 ^ (m + 1) →
  ∃ reg, 0 ≤ reg < 2 ^ (m + 1) ∧ lfsr_step (m + 1) (m :: rest) reg = reg'.
Proof.
  intros Hr'.
  set (b := xorb (Z.testbit reg' 0) (feedback_bit rest (Z.shiftr reg' 1))).
  set (reg := Z.lor (Z.shiftr reg' 1) (Z.shiftl (Z.b2z b) m)
                mod 2 ^ (m + 1)).
  assert (∀ i, 0 ≤ i < m → Z.testbit reg i = Z.testbit reg' (i + 1))
    as Hlow.
  { intros i Hi. unfold reg.
    rewrite Z.mod_pow2_bits_low, Z.lor_spec, Z.shiftr_spec by lia.
    by rewrite Z.shiftl_spec_low, orb_false_r by lia. }
  assert (Z.testbit reg m = b) as Hm.
  { unfold reg.
    rewrite Z.mod_pow2_bits_low, Z.lor_spec, Z.shiftr_spec by lia.
    rewrite (testbit_above (m + 1) reg') by (done || lia).
    rewrite Z.shiftl_spec, Z.sub_diag, testbit_b2z by lia.
    by rewrite andb_true_r. }
  assert (feedback_bit (m :: rest) reg = Z.testbit reg' 0) as Hfb.
  { rewrite feedback_bit_cons, Hm.
    rewrite (feedback_bit_ext rest reg (Z.shiftr reg' 1)).
    - unfold b. rewrite xorb_assoc, xorb_nilpotent. apply xorb_false_r.
    - eapply Forall_impl; [exact rest_below|]. simpl. intros t Ht.
      rewrite Hlow, Z.shiftr_spec by lia. done. }
  exists reg. split.
  { unfold reg. apply Z.mod_pos_bound. lia. }
  apply Z.bits_inj'. intros n Hn.
  destruct (decide (n < m + 1)) as [Hlt|Hge].
  - destruct (decide (n = 0)) as [->|Hn0].
    + by rewrite lfsr_step_bit0 by lia.
    + rewrite lfsr_step_bit_succ, Hlow by lia. f_equal. lia.
  - rewrite (testbit_above (m + 1) reg') by (done || lia).
    unfold lfsr_step. by rewrite Z.mod_pow2_bits_high by lia.
Qed.

Lemma lfsr_run_reaches (k : nat) (target : Z) :
  0 ≤ target < 2 ^ (m + 1) →
  ∃ seed, 0 ≤ seed < 2 ^ (m + 1) ∧
          lfsr_run (m + 1) (m :: rest) k seed = target.
Proof.
  revert target. induction k as [|k IH]; intros target Ht.
  { by exists target. }
  destruct (lfsr_step_preimage target Ht) as (reg & Hreg & Hstep).
  destruct (IH reg Hreg) as (seed & Hseed & Hrun).
  exists seed. split; [done|].
  unfold lfsr_run in *. simpl. by rewrite Hrun.
Qed.

Lemma feedback_bit_top : feedback_bit (m :: rest) (2 ^ m) = true.
Proof.
  rewrite feedback_bit_cons, Z.pow2_bits_true by done.
  rewrite feedback_bit_false; [done|].
  eapply Forall_impl; [exact rest_below|]. simpl. intros t Ht.
  apply Z.pow2_bits_false. lia.
Qed.

(** At every cycle some seed makes the feedback bit 1. *)
Lemma feedback_bit_reachable (width : Z) (k : nat) :
  m < width →
  ∃ seed, 0 ≤ seed < 2 ^ width ∧
          feedback_bit (m :: rest) (lfsr_run width (m :: rest) k seed)
          = true.
Proof.
  intros Hw.
  destruct (lfsr_run_reaches k (2 ^ m)) as (seed & Hseed & Hrun).
  { split; [lia|]. apply Z.pow_lt_mono_r; lia. }
  exists seed. split.
  { split; [lia|]. eapply Z.lt_le_trans; [apply Hseed|].
    apply Z.pow_le_mono_r; lia. }
  rewrite <- feedback_bit_mod, lfsr_run_mod by done.
  rewrite (Z.mod_small seed) by done. rewrite Hrun.
  apply feedback_bit_top.
Qed.

End low_bits.

(** ** Invariants of the schedule *)

Lemma wf_poly_head (width : Z) (taps : list Z) :
  wf_poly width taps →
  ∃ m rest, taps = m :: rest ∧ 0 ≤ m < width ∧
            Forall (λ t, 0 ≤ t < m) rest.
Proof.
  intros (Hne & Hin & Hs). destruct taps as [|m rest]; [done|].
  exists m, rest. apply Forall_cons in Hin as [Hm Hin].
  apply StronglySorted_inv in Hs as [_ Hlt].
  split; [done|]. split; [done|].
  rewrite Forall_forall in *. intros t Ht.
  pose proof (Hin t Ht). pose proof (Hlt t Ht). lia.
Qed.

(** No term of the schedule of a well-formed polynomial is empty: some seed
    gives the feedback bit of that cycle the value 1. *)
Lemma spec_schedule_nonempty (width : Z) (taps : list Z) (n k : nat)
    (t : term) :
  wf_poly width taps →
  spec_schedule taps n (spec_initial width) !! k = Some t → t ≠ ∅.
Proof.
  intros Hwf Hk Hempty.
  destruct (wf_poly_range _ _ Hwf) as [Hw Hin].
  destruct (wf_poly_head _ _ Hwf) as (m & rest & -> & Hm & Hrest).
  destruct (feedback_bit_reachable m rest (proj1 Hm) Hrest width k)
    as (seed & _ & Hbit); [lia|].
  rewrite <- (spec_schedule_eval seed width (m :: rest) n Hw Hin
                (spec_initial width) seed k t) in Hbit.
  - by rewrite Hempty, eval_term_empty in Hbit.
  - apply spec_initial_len. lia.
  - apply stands_for_initial.
  - done.
Qed.

(** Every cell of a snapshot, and so every term, stays inside [[0, width)]. *)
Lemma xor_two_sets_subseteq (a b c : term) :
  a ⊆ c → b ⊆ c → xor_two_sets a b ⊆ c.
Proof. unfold xor_two_sets. set_solver. Qed.

Lemma spec_feedback_subseteq (taps : list Z) (cells : list term) (c : term) :
  Forall (λ t, 0 ≤ t < len cells) taps →
  Forall (λ cell, cell ⊆ c) cells →
  spec_feedback taps cells ⊆ c.
Proof.
  intros Hin Hcells. unfold spec_feedback.
  assert ((∅ : term) ⊆ c) as Hacc by set_solver.
  revert Hacc. generalize (∅ : term) as acc.
  induction Hin as [|t taps Ht _ IH]; intros acc Hacc; simpl; [done|].
  apply IH. apply xor_two_sets_subseteq; [done|].
  unfold len in Ht.
  destruct (lookup_lt_is_Some_2 cells (Z.to_nat t)) as [cell Hcell]; [lia|].
  rewrite (list_lookup_total_correct _ _ _ Hcell).
  rewrite Forall_forall in Hcells. apply Hcells.
  by eapply list_elem_of_lookup_2.
Qed.

Lemma spec_schedule_subseteq (width : Z) (taps : list Z) (n : nat)
    (c : term) :
  0 < width → Forall (λ t, 0 ≤ t < width) taps →
  ∀ (cells : list term) (k : nat) (t : term),
    len cells = width → Forall (λ cell, cell ⊆ c) cells →
    spec_schedule taps n cells !! k = Some t → t ⊆ c.
Proof.
  intros Hw Hin. induction n as [|n IH]; intros cells k t Hlen Hcells Hk.
  { done. }
  assert (spec_feedback taps cells ⊆ c) as Hfb
    by (apply spec_feedback_subseteq; [by rewrite Hlen|done]).
  destruct k as [|k]; simpl in Hk.
  { by injection Hk as <-. }
  apply (IH (spec_shift (spec_feedback taps cells) cells) k); [| |done].
  - unfold len in *. by rewrite spec_shift_length.
  - destruct cells as [|c0 rest]; [done|]. rewrite spec_shift_closed.
    constructor; [done|]. by apply Forall_take.
Qed.

Lemma spec_initial_subseteq (width : Z) :
  Forall (λ cell, cell ⊆ (list_to_set (py_range width) : term))
    (spec_initial width).
Proof.
  unfold spec_initial. apply Forall_fmap, Forall_forall.
  intros i Hi. simpl. set_solver.
Qed.

Lemma elem_of_py_range (n i : Z) : i ∈ py_range n ↔ 0 ≤ i < n.
Proof.
  unfold py_range. rewrite list_elem_of_fmap. split.
  - intros (j & -> & Hj). apply elem_of_seq in Hj. lia.
  - intros Hi. exists (Z.to_nat i). split; [lia|].
    apply elem_of_seq. lia.
Qed.

(** ** The claims *)

(** C1. For every validated polynomial, every requested width [N] and every
    concrete seed, [gen_random] returns a schedule, and XORing the seed bits
    at the indices of its term [k] gives the feedback bit that the concrete
    sequential register computes at cycle [k] from that seed.  The seed may be
    any integer, in particular any [width]-bit value. *)
Theorem C1_symbolic_matches_concrete (width : Z) (taps : list Z) (N seed : Z) :
  validated width taps →
  ∃ out,
    gen_random width taps N = Ok out ∧
    length out = Z.to_nat N ∧
    ∀ (k : nat) (t : term),
      out !! k = Some t →
      eval_term seed t = feedback_bit taps (lfsr_run width taps k seed).
Proof.
  intros Hv. apply validated_wf in Hv.
  destruct (wf_poly_range _ _ Hv) as [Hw Hin].
  exists (spec_schedule taps (Z.to_nat N) (spec_initial width)).
  split; [by apply gen_random_closed|].
  split; [apply spec_schedule_length|].
  intros k t Hk.
  apply (spec_schedule_eval seed width taps (Z.to_nat N) Hw Hin
           (spec_initial width) seed k t); [|apply stands_for_initial|done].
  apply spec_initial_len. lia.
Qed.

Lemma C1_witness :
  ∃ out,
    gen_random 6 [5; 4; 2; 1] 8 = Ok out ∧
    length out = Z.to_nat 8 ∧
    ∀ (k : nat) (t : term),
      out !! k = Some t →
      eval_term 45 t = feedback_bit [5; 4; 2; 1]
                         (lfsr_run 6 [5; 4; 2; 1] k 45).
Proof.
  apply (C1_symbolic_matches_concrete 6 [5; 4; 2; 1] 8 45).
  exists "0b110110". reflexivity.
Defined.



(** C3. For every validated polynomial, every term of the schedule that
    [gen_random] returns, at any cycle, is a subset of [[0, width)] and is
    not the empty set. *)
Theorem C3_terms_in_range_nonempty (width : Z) (taps : list Z) (N : Z)
    (out : list term) (k : nat) (t : term) :
  validated width taps →
  gen_random width taps N = Ok out → out !! k = Some t →
  (∀ i, i ∈ t → 0 ≤ i < width) ∧ t ≠ ∅.
Proof.
  intros Hv Hout Hk. apply validated_wf in Hv.
  destruct (wf_poly_range _ _ Hv) as [Hw Hin].
  rewrite gen_random_closed in Hout by done. injection Hout as <-.
  split.
  - intros i Hi. apply elem_of_py_range.
    assert (t ⊆ (list_to_set (py_range width) : term)) as Hsub.
    { apply (spec_schedule_subseteq width taps (Z.to_nat N) _ Hw Hin
               (spec_initial width) k t); [|apply spec_initial_subseteq|done].
      apply spec_initial_len. lia. }
    apply Hsub in Hi. by apply elem_of_list_to_set in Hi.
  - by eapply spec_schedule_nonempty.
Qed.

Lemma C3_witness :
  (∀ i, i ∈ ({[ 0; 1; 3; 4 ]} : term) → 0 ≤ i < 6) ∧
  ({[ 0; 1; 3; 4 ]} : term) ≠ ∅.
Proof.
  apply (C3_terms_in_range_nonempty 6 [5; 4; 2; 1] 2
           [{[ 1; 2; 4; 5 ]}; {[ 0; 1; 3; 4 ]}] 1 {[ 0; 1; 3; 4 ]}).
  - exists "0b110110". reflexivity.
  - vm_compute. reflexivity.
  - reflexivity.
Defined.




(** C5. For every validated polynomial and every [N >= 1], term 0 of the
    schedule that [gen_random] returns is the set of the tap indices; for the
    literal [0b110110] and [N = 1] it is [{1, 2, 4, 5}]. *)
Theorem C5_cycle0_is_tap_set :
  (∀ (width : Z) (taps : list Z) (N : Z),
     validated width taps → 1 ≤ N →
     ∃ out, gen_random width taps N = Ok out ∧
            out !! 0%nat = Some (list_to_set taps)) ∧
  parse_polynomial "0b110110" = Ok (6, [5; 4; 2; 1]) ∧
  gen_random 6 [5; 4; 2; 1] 1 = Ok [ {[ 1; 2; 4; 5 ]} ].
Proof.
  split; [|split; [reflexivity|by vm_compute]].
  intros width taps N Hv HN. apply validated_wf in Hv.
  destruct (wf_poly_range _ _ Hv) as [Hw Hin].
  exists (spec_schedule taps (Z.to_nat N) (spec_initial width)).
  split; [by apply gen_random_closed|].
  destruct (Z.to_nat N) as [|n] eqn:Hn; [lia|]. simpl.
  by rewrite spec_feedback_initial.
Qed.

Lemma C5_witness :
  ∃ out, gen_random 6 [5; 4; 2; 1] 4 = Ok out ∧
         out !! 0%nat = Some (list_to_set [5; 4; 2; 1]).
Proof.
  apply (proj1 C5_cycle0_is_tap_set 6 [5; 4; 2; 1] 4).
  - exists "0x36". reflexivity.
  - lia.
Defined.



(** C9. [xor_two_sets] is the symmetric difference of its arguments; it
    sends a term paired with itself to the empty set, and it is commutative
    and associative. *)
Theorem C9_xor_two_sets_algebra :
  (∀ (a b : term) (x : Z),
     x ∈ xor_two_sets a b ↔ (x ∈ a ∧ x ∉ b) ∨ (x ∈ b ∧ x ∉ a)) ∧
  (∀ a b : term, xor_two_sets a b = (a ∖ b) ∪ (b ∖ a)) ∧
  (∀ t : term, xor_two_sets t t = ∅) ∧
  (∀ a b : term, xor_two_sets a b = xor_two_sets b a) ∧
  (∀ a b c : term,
     xor_two_sets a (xor_two_sets b c) = xor_two_sets (xor_two_sets a b) c).
Proof.
  split; [|split; [|split; [|split]]].
  - intros a b x. apply elem_of_xor_two_sets.
  - intros a b. apply set_eq. intros x.
    rewrite elem_of_xor_two_sets, elem_of_union, !elem_of_difference. tauto.
  - apply xor_two_sets_self.
  - apply xor_two_sets_comm.
  - apply xor_two_sets_assoc.
Qed.

(** C10. For a negative requested width [gen_random] does not raise and
    rejects nothing: it returns the empty schedule, as it does for 0, for
    every polynomial, validated or not. *)
Theorem C10_negative_width_empty (width : Z) (taps : list Z) (N : Z) :
  N < 0 →
  gen_random width taps N = Ok [] ∧
  gen_random width taps N = gen_random width taps 0.
Proof.
  intros HN. unfold gen_random.
  rewrite (py_range_nonpos N), (py_range_nonpos 0) by lia. done.
Qed.

Lemma C10_witness :
  gen_random 6 [5; 4; 2; 1] (-3) = Ok [] ∧
  gen_random 6 [5; 4; 2; 1] (-3) = gen_random 6 [5; 4; 2; 1] 0.
Proof. apply (C10_negative_width_empty 6 [5; 4; 2; 1] (-3)). lia. Defined.

(** ** The emitted assignments *)

(** An index loop whose body never raises and uses the index. *)
Lemma for_each_index_i {S A} (l : list A) (body : Z → S → result S)
    (f : S → nat * A → S) (s : S) :
  (∀ (i : nat) x s', l !! i = Some x →
     body (Z.of_nat i) s' = Ok (f s' (i, x))) →
  for_each (py_range (len l)) body s = Ok (foldl f s (imap pair l)).
Proof.
  unfold len. induction l as [|x l IH] using rev_ind; intros Hbody.
  { done. }
  rewrite py_range_of_nat, length_app, Nat.add_1_r, seq_S, fmap_app.
  rewrite for_each_app, <- py_range_of_nat, IH.
  - simpl. rewrite (Hbody (length l) x).
    + rewrite imap_app, foldl_app. simpl. by rewrite Nat.add_0_r.
    + by rewrite lookup_app_r, Nat.sub_diag by lia.
  - intros i y s' Hy. apply Hbody. by apply lookup_app_l_Some.
Qed.

(** A loop over [range(len(pre), len(pre ++ l))] that reads [(pre ++ l)[ii]]
    is a left fold over [l]. *)
Lemma for_each_range2 {S A} (pre l : list A) (body : Z → S → result S)
    (f : S → A → S) (s : S) :
  (∀ (i : nat) x s', (pre ++ l) !! i = Some x → (length pre ≤ i)%nat →
     body (Z.of_nat i) s' = Ok (f s' x)) →
  for_each (py_range2 (len pre) (len (pre ++ l))) body s = Ok (foldl f s l).
Proof.
  unfold len, py_range2. rewrite length_app.
  replace (Z.to_nat (Z.of_nat (length pre + length l) - Z.of_nat (length pre)))
    with (length l) by lia.
  induction l as [|x l IH] using rev_ind; intros Hbody.
  { done. }
  rewrite length_app, Nat.add_1_r, seq_S, fmap_app, for_each_app, IH.
  - simpl. rewrite foldl_app. simpl.
    replace (Z.of_nat (length pre) + Z.of_nat (length l))
      with (Z.of_nat (length pre + length l)) by lia.
    rewrite (Hbody (length pre + length l)%nat x); [done| |lia].
    rewrite app_assoc, lookup_app_r by (rewrite length_app; lia).
    by rewrite length_app, Nat.sub_diag.
  - intros i y s' Hy Hi. apply Hbody; [|done].
    rewrite app_assoc. by apply lookup_app_l_Some.
Qed.

Lemma foldl_string_app {A} (g : A → string) (a b : string) (l : list A) :
  foldl (λ code x, code +:+ g x) (a +:+ b) l
  = a +:+ foldl (λ code x, code +:+ g x) b l.
Proof.
  revert b. induction l as [|x l IH]; intros b; simpl; [done|].
  by rewrite string_app_assoc, IH.
Qed.

Lemma string_app_nil_r (s : string) : s +:+ "" = s.
Proof. induction s as [|c s IH]; [done|]. by rewrite string_app_cons, IH. Qed.

Lemma foldl_assign_stmts (g : nat → term → string) (h : nat → nat)
    (code : string) (l : list term) :
  foldl (λ code '(k, s), code +:+ g k s) code (imap (λ k s, (h k, s)) l)
  = code +:+ str_concat (imap (λ k s, g (h k) s) l).
Proof.
  revert h code. induction l as [|s l IH]; intros h code; simpl.
  { by rewrite string_app_nil_r. }
  rewrite (IH (h ∘ S)). by rewrite string_app_assoc.
Qed.

Section assign.

Variable list_of_set : Z → term → list Z.
Hypothesis order_ok : admissible list_of_set.

(** One statement: the body of the outer loop on a non-empty term. *)
Lemma assign_text_body (rand_out : list term) (i : nat) (s : term)
    (code : string) :
  rand_out !! i = Some s → s ≠ ∅ →
  (s ← getitem rand_out (Z.of_nat i);
   i0 ← getitem (list_of_set (Z.of_nat i) s) 0;
   let code := code +:+ indent +:+ "assign out[" +:+ fmt_d (Z.of_nat i)
                 +:+ "] = seed[" +:+ fmt_d i0 +:+ "]" in
   s ← getitem rand_out (Z.of_nat i);
   code ← for_each (py_range2 1 (Z.of_nat (size s)))
            (λ ii code,
               s ← getitem rand_out (Z.of_nat i);
               i ← getitem (list_of_set (Z.of_nat i) s) ii;
               Ok (code +:+ " ^ seed[" +:+ fmt_d i +:+ "]"))
            code;
   Ok (code +:+ ";" +:+ nl))
  = Ok (code +:+ assign_stmt (Z.of_nat i)
                   (list_of_set (Z.of_nat i) s)).
Proof.
  intros Hs Hne. pose proof (order_ok (Z.of_nat i) s) as Hperm.
  rewrite (getitem_nat _ _ _ Hs). cbn [mbind result_bind].
  destruct (list_of_set (Z.of_nat i) s) as [|i0 rest] eqn:Horder.
  { apply Permutation_nil_l in Hperm. symmetry in Hperm.
    apply elements_empty_inv in Hperm.
    destruct Hne. by apply leibniz_equiv. }
  change (getitem (i0 :: rest) 0) with (Ok i0 : result Z).
  cbn [mbind result_bind]. cbv zeta.
  assert (Z.of_nat (size s) = len ([i0] ++ rest)) as ->.
  { unfold len, size, set_size. simpl. by rewrite <- Hperm. }
  change 1 with (len [i0]).
  rewrite (for_each_range2 [i0] rest _
             (λ code x, code +:+ " ^ seed[" +:+ fmt_d x +:+ "]")).
  2:{ intros j x code' Hx Hj. cbn [mbind result_bind].
      change ([i0] ++ rest) with (i0 :: rest) in Hx.
      by rewrite (getitem_nat _ _ _ Hx). }
  cbn [mbind result_bind]. f_equal. unfold assign_stmt, xor_chain.
  replace (code +:+ indent +:+ "assign out[" +:+ fmt_d (Z.of_nat i)
             +:+ "] = seed[" +:+ fmt_d i0 +:+ "]")
    with ((code +:+ indent +:+ "assign out[" +:+ fmt_d (Z.of_nat i)
             +:+ "] = ") +:+ ("seed[" +:+ fmt_d i0 +:+ "]"))
    by (by rewrite !string_app_assoc).
  rewrite foldl_string_app. by rewrite !string_app_assoc.
Qed.

(** The assignment loop writes one statement per term, in order. *)
Lemma assign_text_closed (rand_out : list term) (code : string) :
  Forall (λ s, s ≠ ∅) rand_out →
  vgen_rand.assign_text list_of_set rand_out code
  = Ok (code +:+ assign_block list_of_set rand_out).
Proof.
  intros Hne. unfold vgen_rand.assign_text, assign_block.
  rewrite (for_each_index_i rand_out _
             (λ code '(k, s),
                code +:+ assign_stmt (Z.of_nat k)
                           (list_of_set (Z.of_nat k) s))).
  - f_equal.
    apply (foldl_assign_stmts
             (λ k s, assign_stmt (Z.of_nat k) (list_of_set (Z.of_nat k) s))
             id).
  - intros i s code' Hs. apply assign_text_body; [done|].
    rewrite Forall_forall in Hne. apply Hne.
    by eapply list_elem_of_lookup_2.
Qed.

End assign.

Lemma ascending_order_admissible : admissible ascending_order.
Proof. intros ww s. unfold ascending_order. apply merge_sort_Permutation. Qed.

Lemma hash_slot_order_admissible : admissible hash_slot_order.
Proof. intros ww s. unfold hash_slot_order. apply merge_sort_Permutation. Qed.

(** C6, as stated, fails: the code writes the indices of a chain in the
    order in which Python iterates the set, and sorts nothing.  For the
    literal [0x1a0] the term of cycle 0 is [{5, 7, 8}]; iterated by hash
    slot it gives the chain [seed[8] ^ seed[5] ^ seed[7]], which is not
    ascending. *)
Lemma C6_counterexample :
  admissible hash_slot_order ∧
  parse_polynomial "0x1a0" = Ok (9, [8; 7; 5]) ∧
  gen_random 9 [8; 7; 5] 1 = Ok [ {[ 5; 7; 8 ]} ] ∧
  vgen_rand.assign_text hash_slot_order [ {[ 5; 7; 8 ]} ] ""
  = Ok ("    assign out[0] = seed[8] ^ seed[5] ^ seed[7];" +:+ nl) ∧
  assign_block ascending_order [ {[ 5; 7; 8 ]} ]
  = "    assign out[0] = seed[5] ^ seed[7] ^ seed[8];" +:+ nl ∧
  vgen_rand.assign_text hash_slot_order [ {[ 5; 7; 8 ]} ] ""
  ≠ Ok (assign_block ascending_order [ {[ 5; 7; 8 ]} ]).
Proof.
  split; [apply hash_slot_order_admissible|].
  split; [reflexivity|]. split; [by vm_compute|].
  split; [by vm_compute|]. split; [by vm_compute|].
  vm_compute. discriminate.
Qed.

(** C6, amended. For every validated polynomial, every [N >= 0] and every
    admissible iteration order, the assignment loop does not raise and
    appends exactly [N] statements, statement [k] driving output bit [k] by
    an XOR chain that lists the indices of term [k] of the schedule, each
    once, in the order in which the set is iterated. *)
Theorem C6_assignments_follow_iteration_order
    (list_of_set : Z → term → list Z) (width : Z) (taps : list Z) (N : Z)
    (code : string) :
  admissible list_of_set → validated width taps → 0 ≤ N →
  ∃ out,
    gen_random width taps N = Ok out ∧
    len out = N ∧
    vgen_rand.assign_text list_of_set out code
    = Ok (code +:+ assign_block list_of_set out) ∧
    ∀ (k : nat) (s : term),
      out !! k = Some s →
      NoDup (list_of_set (Z.of_nat k) s) ∧
      ∀ i, i ∈ list_of_set (Z.of_nat k) s ↔ i ∈ s.
Proof.
  intros Hadm Hv HN. pose proof (validated_wf _ _ Hv) as Hwf.
  destruct (wf_poly_range _ _ Hwf) as [Hw Hin].
  exists (spec_schedule taps (Z.to_nat N) (spec_initial width)).
  split; [by apply gen_random_closed|]. split.
  { unfold len. rewrite spec_schedule_length. lia. }
  split.
  - apply assign_text_closed; [done|]. apply Forall_forall. intros s Hs.
    apply list_elem_of_lookup_1 in Hs as [k Hk].
    by eapply spec_schedule_nonempty.
  - intros k s _. pose proof (Hadm (Z.of_nat k) s) as Hperm. split.
    + rewrite Hperm. apply NoDup_elements.
    + intros i. rewrite Hperm. apply elem_of_elements.
Qed.

Lemma C6_witness :
  ∃ out,
    gen_random 6 [5; 4; 2; 1] 2 = Ok out ∧
    len out = 2 ∧
    vgen_rand.assign_text ascending_order out ""
    = Ok ("" +:+ assign_block ascending_order out) ∧
    ∀ (k : nat) (s : term),
      out !! k = Some s →
      NoDup (ascending_order (Z.of_nat k) s) ∧
      ∀ i, i ∈ ascending_order (Z.of_nat k) s ↔ i ∈ s.
Proof.
  apply (C6_assignments_follow_iteration_order ascending_order
           6 [5; 4; 2; 1] 2 "").
  - apply ascending_order_admissible.
  - exists "0b110110". reflexivity.
  - lia.
Defined.

(** C7, on the code: for the polynomial [0b110110] the sequential module
    declares the register as the output port [lfsr] and assigns to [lfsr],
    but its feedback equation and its shift concatenation read the
    identifier [lsfr], which the module does not declare. *)
Theorem C7_sequential_text_reads_lsfr :
  parse_polynomial "0b110110" = Ok (6, [5; 4; 2; 1]) ∧
  vgen_lfsr.module_text 6 [5; 4; 2; 1] "vgen"
  = Ok (unlines
     [ "////////////////////////////////////////////////////////////////////////////////";
       "///// Generated code. Don't modify! ";
       "///// Author: Anh Tran (Andrew) ";
       "///// This module computes 6-bit LFSR bits from an input seed ";
       "///// based on the LFSR polynomial: x^6 + x^5 + x^3 + x^2 + 1 ";
       "////////////////////////////////////////////////////////////////////////////////";
       "module vgen_lfsr_6_110110 (";
       "    input    clk,";
       "    input    rst,";
       "";
       "    input [6-1:0]   seed, ";
       "    output [6-1:0]  lfsr";
       "    );";
       "";
       "    logic    fb; // feedback bit";
       "    assign fb = lsfr[5] ^ lsfr[4] ^ lsfr[2] ^ lsfr[1];";
       "";
       "    always @(posedge clk) begin";
       "        if (rst) begin";
       "            lfsr <= seed;";
       "        end";
       "        else begin";
       "            lfsr <= {lsfr[4:0], fb};";
       "        end";
       "    end";
       "";
       "endmodule" ]).
Proof. split; [reflexivity|]. by vm_compute. Qed.


(** ** Further properties of the parser *)





(** X1. A hexadecimal literal is parsed as the binary literal that [bin]
    gives for its value: both are rejected, or both return the same width
    and taps. *)
Theorem X1_hex_parses_as_bin (hs : string) (v : Z) :
  py_eval (String "0" (String "x" hs)) = Ok v →
  parse_polynomial (String "0" (String "x" hs)) = parse_polynomial (py_bin v).
Proof.
  intros Hv. rewrite parse_polynomial_hex, Hv. cbn [mbind result_bind].
  destruct (py_eval_Ok _ _ Hv) as [Hpos _].
  destruct v as [|p|p]; [done| |lia].
  change (py_bin (Z.pos p)) with (String "0" (String "b" (bin_digits p))).
  rewrite parse_polynomial_bin.
  by destruct (py_eval (String "0" (String "b" (bin_digits p)))).
Qed.

Lemma X1_witness :
  parse_polynomial "0x36" = parse_polynomial (py_bin 54).
Proof. apply (X1_hex_parses_as_bin "36" 54). reflexivity. Defined.




(** ** The polynomial as the generators render it *)


Lemma str_concat_app (l1 l2 : list string) :
  str_concat (l1 ++ l2) = str_concat l1 +:+ str_concat l2.
Proof.
  induction l1 as [|x l1 IH]; simpl; [done|].
  by rewrite IH, string_app_assoc.
Qed.





(** ** The two scripts from end to end *)










(** ** [gen_random] on arbitrary arguments *)

Lemma getitem_spec {A} `{!Inhabited A} (l : list A) (i : Z) :
  getitem l i
  = if (0 <=? norm_index (len l) i) && (norm_index (len l) i <? len l)
    then Ok (l !!! Z.to_nat (norm_index (len l) i))
    else Raise IndexError.
Proof.
  unfold getitem, norm_index. cbv zeta.
  set (j := if 0 <=? i then i else len l + i).
  destruct ((0 <=? j) && (j <? len l)) eqn:Hj; [|done].
  apply andb_prop in Hj as [H0%Z.leb_le H1%Z.ltb_lt]. unfold len in H1.
  destruct (lookup_lt_is_Some_2 l (Z.to_nat j)) as [x Hx]; [lia|].
  by rewrite Hx, (list_lookup_total_correct _ _ _ Hx).
Qed.

Lemma getitem_in_range {A} `{!Inhabited A} (l : list A) (i : Z) :
  - len l ≤ i < len l →
  getitem l i = Ok (l !!! Z.to_nat (norm_index (len l) i)).
Proof.
  intros Hi. rewrite getitem_spec.
  replace ((0 <=? norm_index (len l) i) && (norm_index (len l) i <? len l))
    with true; [done|].
  symmetry. apply andb_true_intro. unfold norm_index.
  destruct (0 <=? i) eqn:H0;
    [apply Z.leb_le in H0|apply Z.leb_gt in H0];
    split; (apply Z.leb_le || apply Z.ltb_lt); lia.
Qed.

Lemma getitem_out_of_range {A} `{!Inhabited A} (l : list A) (i : Z) :
  i < - len l ∨ len l ≤ i → getitem l i = Raise IndexError.
Proof.
  intros Hi. rewrite getitem_spec.
  replace ((0 <=? norm_index (len l) i) && (norm_index (len l) i <? len l))
    with false; [done|].
  symmetry. apply andb_false_iff. unfold norm_index.
  destruct (0 <=? i) eqn:H0;
    [apply Z.leb_le in H0|apply Z.leb_gt in H0].
  - right. apply Z.ltb_ge. lia.
  - left. apply Z.leb_gt. lia.
Qed.

Lemma for_items_app {S A} (l1 l2 : list A) (g : S → A → result S) (s : S) :
  for_items (l1 ++ l2) g s = (s' ← for_items l1 g s; for_items l2 g s').
Proof.
  revert s. induction l1 as [|x l1 IH]; intros s; simpl; [done|].
  destruct (g s x) as [s'|e]; simpl; [apply IH|done].
Qed.

(** An index loop over a list is a loop over its items. *)
Lemma for_each_index_items {S A} (l : list A) (body : Z → S → result S)
    (g : S → A → result S) (s : S) :
  (∀ (i : nat) x s', l !! i = Some x → body (Z.of_nat i) s' = g s' x) →
  for_each (py_range (len l)) body s = for_items l g s.
Proof.
  unfold len. induction l as [|x l IH] using rev_ind; intros Hbody.
  { done. }
  rewrite py_range_of_nat, length_app, Nat.add_1_r, seq_S, fmap_app.
  rewrite for_each_app, for_items_app, <- py_range_of_nat, IH.
  - destruct (for_items l g s) as [s'|e]; [|done]. simpl.
    rewrite (Hbody (length l) x); [done|].
    by rewrite lookup_app_r, Nat.sub_diag by lia.
  - intros i y s' Hy. apply Hbody. by apply lookup_app_l_Some.
Qed.

Lemma xor_taps_items (one_indices : list Z) (cur_sets : list term) :
  xor_taps one_indices cur_sets
  = for_items one_indices
      (λ xor_out t, c ← getitem cur_sets t; Ok (xor_two_sets xor_out c)) ∅.
Proof.
  unfold xor_taps. apply for_each_index_items. intros i t acc Ht.
  by rewrite (getitem_nat _ _ _ Ht).
Qed.

(** The tap loop with taps anywhere in [[-len, len)]: a negative tap reads
    the cell counted from the end. *)
Lemma xor_taps_wrap (one_indices : list Z) (cur_sets : list term) :
  Forall (λ t, - len cur_sets ≤ t < len cur_sets) one_indices →
  xor_taps one_indices cur_sets
  = Ok (spec_feedback (norm_index (len cur_sets) <$> one_indices) cur_sets).
Proof.
  intros Hin. rewrite xor_taps_items. unfold spec_feedback.
  generalize (∅ : term) as acc.
  induction Hin as [|t taps Ht _ IH]; intros acc; simpl; [done|].
  rewrite getitem_in_range by done. simpl. apply IH.
Qed.

(** The tap loop raises [IndexError] at the first tap outside
    [[-len, len)]. *)
Lemma xor_taps_raise (one_indices : list Z) (cur_sets : list term) :
  Exists (λ t, t < - len cur_sets ∨ len cur_sets ≤ t) one_indices →
  xor_taps one_indices cur_sets = Raise IndexError.
Proof.
  intros Hex. rewrite xor_taps_items. generalize (∅ : term) as acc.
  induction Hex as [t taps Ht|t taps _ IH]; intros acc; simpl.
  - by rewrite getitem_out_of_range.
  - rewrite getitem_spec.
    destruct (_ && _); simpl; [apply IH|done].
Qed.

Lemma gen_random_body_wrap (lfsr_len : Z) (one_indices : list Z)
    (cur_sets rand_out : list term) :
  0 < lfsr_len → len cur_sets = lfsr_len →
  Forall (λ t, - lfsr_len ≤ t < lfsr_len) one_indices →
  gen_random_body lfsr_len one_indices (cur_sets, rand_out)
  = gen_random_body lfsr_len (norm_index lfsr_len <$> one_indices)
      (cur_sets, rand_out).
Proof.
  intros Hpos Hlen Hin. unfold gen_random_body.
  rewrite xor_taps_wrap by (by rewrite Hlen).
  rewrite (xor_taps_closed (norm_index lfsr_len <$> one_indices)).
  - by rewrite Hlen.
  - rewrite Hlen. apply Forall_fmap. eapply Forall_impl; [exact Hin|].
    simpl. intros t Ht. unfold norm_index.
    destruct (0 <=? t) eqn:H0;
      [apply Z.leb_le in H0|apply Z.leb_gt in H0]; lia.
Qed.

Lemma norm_index_range (n t : Z) :
  - n ≤ t < n → 0 ≤ norm_index n t < n.
Proof.
  intros Ht. unfold norm_index.
  destruct (0 <=? t) eqn:H0;
    [apply Z.leb_le in H0|apply Z.leb_gt in H0]; lia.
Qed.

Lemma gen_random_loop_wrap (lfsr_len : Z) (one_indices : list Z)
    (xs : list Z) (cur_sets rand_out : list term) :
  0 < lfsr_len → len cur_sets = lfsr_len →
  Forall (λ t, - lfsr_len ≤ t < lfsr_len) one_indices →
  for_each xs (λ _ st, gen_random_body lfsr_len one_indices st)
    (cur_sets, rand_out)
  = for_each xs
      (λ _ st,
         gen_random_body lfsr_len (norm_index lfsr_len <$> one_indices) st)
      (cur_sets, rand_out).
Proof.
  intros Hpos Hlen Hin.
  assert (Forall (λ t, 0 ≤ t < lfsr_len)
            (norm_index lfsr_len <$> one_indices)) as Hin'.
  { apply Forall_fmap. eapply Forall_impl; [exact Hin|].
    intros t Ht. by apply norm_index_range. }
  revert cur_sets rand_out Hlen.
  induction xs as [|x xs IH]; intros cur_sets rand_out Hlen; [done|].
  rewrite !for_each_cons, gen_random_body_wrap by done.
  rewrite gen_random_body_closed by done. cbn [mbind result_bind].
  apply IH. unfold len in *. by rewrite spec_shift_length.
Qed.

(** With every tap in [[-lfsr_len, lfsr_len)], [gen_random] returns the
    schedule of the taps counted from the start. *)
Lemma gen_random_wrap_closed (lfsr_len : Z) (one_indices : list Z)
    (rand_wd : Z) :
  0 < lfsr_len →
  Forall (λ t, - lfsr_len ≤ t < lfsr_len) one_indices →
  gen_random lfsr_len one_indices rand_wd
  = Ok (spec_schedule (norm_index lfsr_len <$> one_indices)
          (Z.to_nat rand_wd) (spec_initial lfsr_len)).
Proof.
  intros Hpos Hin.
  rewrite <- gen_random_closed.
  - unfold gen_random. rewrite gen_random_loop_wrap; [done..| |done].
    change ((λ ii, {[ ii ]}) <$> py_range lfsr_len)
      with (spec_initial lfsr_len).
    apply spec_initial_len. lia.
  - done.
  - apply Forall_fmap. eapply Forall_impl; [exact Hin|].
    intros t Ht. by apply norm_index_range.
Qed.

Lemma gen_random_raise (lfsr_len : Z) (one_indices : list Z)
    (rand_wd : Z) :
  1 ≤ rand_wd →
  lfsr_len ≤ 0 ∨
    Exists (λ t, t < - lfsr_len ∨ lfsr_len ≤ t) one_indices →
  gen_random lfsr_len one_indices rand_wd = Raise IndexError.
Proof.
  intros HN Hbad. unfold gen_random.
  assert (∃ rest, py_range rand_wd = 0 :: rest) as [rest ->].
  { unfold py_range. destruct (Z.to_nat rand_wd) as [|n] eqn:Hn; [lia|].
    simpl. by eauto. }
  rewrite for_each_cons.
  change ((λ ii, {[ ii ]}) <$> py_range lfsr_len)
    with (spec_initial lfsr_len).
  assert (gen_random_body lfsr_len one_indices (spec_initial lfsr_len, [])
          = Raise IndexError) as ->; [|done].
  unfold gen_random_body.
  destruct (decide (lfsr_len ≤ 0)) as [Hle|Hgt].
  - assert (spec_initial lfsr_len = []) as ->.
    { unfold spec_initial. by rewrite py_range_nonpos. }
    destruct one_indices as [|t taps].
    + unfold xor_taps, shift_sets, py_range_down. simpl.
      replace (Z.to_nat (lfsr_len - 1 - 0)) with O by lia. done.
    + rewrite xor_taps_raise; [done|]. left. unfold len. simpl. lia.
  - destruct Hbad as [?|Hex]; [lia|].
    rewrite xor_taps_raise; [done|].
    rewrite spec_initial_len by lia. done.
Qed.


Lemma gen_random_nonpos (lfsr_len : Z) (one_indices : list Z)
    (rand_wd : Z) :
  rand_wd ≤ 0 → gen_random lfsr_len one_indices rand_wd = Ok [].
Proof. intros HN. unfold gen_random. by rewrite py_range_nonpos. Qed.

(** X6. [gen_random] reads a tap [t] in [[-lfsr_len, 0)] as Python indexes
    a list: from the end.  With such taps it returns what it returns when
    each of them is replaced by [lfsr_len + t], and it does not raise. *)
Theorem X6_negative_taps_wrap (lfsr_len : Z) (one_indices : list Z)
    (rand_wd : Z) :
  0 < lfsr_len →
  Forall (λ t, - lfsr_len ≤ t < lfsr_len) one_indices →
  gen_random lfsr_len one_indices rand_wd
  = gen_random lfsr_len (norm_index lfsr_len <$> one_indices) rand_wd ∧
  ∃ out, gen_random lfsr_len one_indices rand_wd = Ok out ∧
         len out = Z.max 0 rand_wd.
Proof.
  intros Hpos Hin. rewrite gen_random_wrap_closed by done. split.
  - rewrite gen_random_closed; [done..|].
    apply Forall_fmap. eapply Forall_impl; [exact Hin|].
    intros t Ht. by apply norm_index_range.
  - eexists. split; [done|]. unfold len.
    rewrite spec_schedule_length. lia.
Qed.

Lemma X6_witness :
  gen_random 6 [-1; 4; -4; 1] 5
  = gen_random 6 (norm_index 6 <$> [-1; 4; -4; 1]) 5 ∧
  ∃ out, gen_random 6 [-1; 4; -4; 1] 5 = Ok out ∧ len out = Z.max 0 5.
Proof.
  apply (X6_negative_taps_wrap 6 [-1; 4; -4; 1] 5).
  - lia.
  - by repeat constructor.
Defined.

(** X7. [gen_random] raises exactly when at least one cycle is requested
    and the register length is not positive or some tap lies outside
    [[-lfsr_len, lfsr_len)]; the exception is then [IndexError]. *)
Theorem X7_gen_random_index_error (lfsr_len : Z) (one_indices : list Z)
    (rand_wd : Z) (e : exn) :
  gen_random lfsr_len one_indices rand_wd = Raise e ↔
  e = IndexError ∧ 1 ≤ rand_wd ∧
  (lfsr_len ≤ 0 ∨
   Exists (λ t, t < - lfsr_len ∨ lfsr_len ≤ t) one_indices).
Proof.
  split.
  - intros Hraise.
    destruct (decide (rand_wd ≤ 0)) as [HN|HN].
    { by rewrite gen_random_nonpos in Hraise. }
    destruct (decide (lfsr_len ≤ 0)) as [Hw|Hw].
    { rewrite gen_random_raise in Hraise by (lia || by left).
      injection Hraise as <-. split; [done|]. split; [lia|by left]. }
    destruct (decide (Forall (λ t, - lfsr_len ≤ t < lfsr_len) one_indices))
      as [Hin|Hout].
    { by rewrite gen_random_wrap_closed in Hraise by (done || lia). }
    apply not_Forall_Exists in Hout; [|apply _].
    assert (Exists (λ t, t < - lfsr_len ∨ lfsr_len ≤ t) one_indices) as Hex.
    { eapply Exists_impl; [exact Hout|]. simpl. intros t Ht. lia. }
    rewrite gen_random_raise in Hraise by (lia || by right).
    injection Hraise as <-. split; [done|]. split; [lia|by right].
  - intros (-> & HN & Hbad). by apply gen_random_raise.
Qed.

Lemma X7_witness : gen_random 6 [5; 6] 2 = Raise IndexError.
Proof.
  apply (proj2 (X7_gen_random_index_error 6 [5; 6] 2 IndexError)).
  split; [reflexivity|]. split; [lia|].
  right. right. left. right. lia.
Defined.

(** ** How the schedule depends on its arguments *)

Lemma spec_feedback_perm (taps taps' : list Z) (cells : list term) :
  taps ≡ₚ taps' → spec_feedback taps cells = spec_feedback taps' cells.
Proof.
  intros Hperm. unfold spec_feedback. generalize (∅ : term) as acc.
  induction Hperm as [|t l l' _ IH|t1 t2 l|l1 l2 l3 _ IH1 _ IH2];
    intros acc; simpl.
  - done.
  - apply IH.
  - f_equal. rewrite <- !xor_two_sets_assoc. f_equal.
    apply xor_two_sets_comm.
  - by rewrite IH1, IH2.
Qed.

Lemma spec_schedule_perm (taps taps' : list Z) (n : nat) (cells : list term) :
  taps ≡ₚ taps' → spec_schedule taps n cells = spec_schedule taps' n cells.
Proof.
  intros Hperm. revert cells. induction n as [|n IH]; intros cells; [done|].
  simpl. by rewrite (spec_feedback_perm _ _ _ Hperm), IH.
Qed.

(** X8. [gen_random] does not depend on the order of the taps: on two
    lists of taps that are permutations of each other it returns the same
    schedule, or raises the same exception. *)
Theorem X8_tap_order_irrelevant (lfsr_len : Z) (taps taps' : list Z)
    (rand_wd : Z) :
  taps ≡ₚ taps' →
  gen_random lfsr_len taps rand_wd = gen_random lfsr_len taps' rand_wd.
Proof.
  intros Hperm.
  destruct (decide (rand_wd ≤ 0)) as [HN|HN].
  { by rewrite !gen_random_nonpos. }
  destruct (decide (lfsr_len ≤ 0)) as [Hw|Hw].
  { rewrite !gen_random_raise by (lia || by left). done. }
  destruct (decide (Forall (λ t, - lfsr_len ≤ t < lfsr_len) taps))
    as [Hin|Hout].
  - assert (Forall (λ t, - lfsr_len ≤ t < lfsr_len) taps') as Hin'
      by (by rewrite <- Hperm).
    rewrite !gen_random_wrap_closed by (done || lia). f_equal.
    apply spec_schedule_perm. by apply fmap_Permutation.
  - apply not_Forall_Exists in Hout; [|apply _].
    assert (Exists (λ t, t < - lfsr_len ∨ lfsr_len ≤ t) taps) as Hex.
    { eapply Exists_impl; [exact Hout|]. simpl. intros t Ht. lia. }
    assert (Exists (λ t, t < - lfsr_len ∨ lfsr_len ≤ t) taps') as Hex'
      by (by rewrite <- Hperm).
    rewrite !gen_random_raise by (lia || by right). done.
Qed.

Lemma X8_witness :
  gen_random 6 [5; 4; 2; 1] 7 = gen_random 6 [1; 5; 2; 4] 7.
Proof.
  apply (X8_tap_order_irrelevant 6 [5; 4; 2; 1] [1; 5; 2; 4] 7).
  apply (Permutation_trans (l' := [5; 1; 4; 2])).
  - apply perm_skip.
    apply (Permutation_trans (l' := [4; 1; 2])); [|apply perm_swap].
    apply perm_skip, perm_swap.
  - apply (Permutation_trans (l' := [1; 5; 4; 2])); [apply perm_swap|].
    do 2 apply perm_skip. apply perm_swap.
Defined.

Lemma spec_schedule_take (taps : list Z) (n m : nat) (cells : list term) :
  take n (spec_schedule taps (n + m) cells) = spec_schedule taps n cells.
Proof.
  revert cells. induction n as [|n IH]; intros cells; simpl; [done|].
  by rewrite IH.
Qed.

(** X9. Asking for more output bits does not change the earlier ones: the
    schedule for [N] bits is the first [N] terms of the schedule for any
    larger width. *)
Theorem X9_schedule_prefix (lfsr_len : Z) (one_indices : list Z) (N M : Z) :
  0 < lfsr_len →
  Forall (λ t, - lfsr_len ≤ t < lfsr_len) one_indices →
  N ≤ M →
  ∃ out_N out_M,
    gen_random lfsr_len one_indices N = Ok out_N ∧
    gen_random lfsr_len one_indices M = Ok out_M ∧
    out_N = take (Z.to_nat N) out_M.
Proof.
  intros Hpos Hin HNM. rewrite !gen_random_wrap_closed by done.
  eexists _, _. split; [done|]. split; [done|].
  replace (Z.to_nat M)
    with (Z.to_nat N + (Z.to_nat M - Z.to_nat N))%nat by lia.
  by rewrite spec_schedule_take.
Qed.

Lemma X9_witness :
  ∃ out_N out_M,
    gen_random 6 [5; 4; 2; 1] 3 = Ok out_N ∧
    gen_random 6 [5; 4; 2; 1] 10 = Ok out_M ∧
    out_N = take (Z.to_nat 3) out_M.
Proof.
  apply (X9_schedule_prefix 6 [5; 4; 2; 1] 3 10).
  - lia.
  - by repeat constructor.
  - lia.
Defined.

Lemma spec_snapshot_succ (taps : list Z) (k : nat) (cells : list term) :
  spec_snapshot taps (S k) cells
  = spec_shift (spec_feedback taps (spec_snapshot taps k cells))
      (spec_snapshot taps k cells).
Proof.
  revert cells. induction k as [|k IH]; intros cells; [done|].
  change (spec_snapshot taps (S (S k)) cells)
    with (spec_snapshot taps (S k)
            (spec_shift (spec_feedback taps cells) cells)).
  by rewrite IH.
Qed.

Lemma spec_snapshot_length (taps : list Z) (k : nat) (cells : list term) :
  length (spec_snapshot taps k cells) = length cells.
Proof.
  revert cells. induction k as [|k IH]; intros cells; simpl; [done|].
  by rewrite IH, spec_shift_length.
Qed.

Lemma spec_schedule_lookup (taps : list Z) (n k : nat) (cells : list term) :
  (k < n)%nat →
  spec_schedule taps n cells !! k
  = Some (spec_feedback taps (spec_snapshot taps k cells)).
Proof.
  revert k cells. induction n as [|n IH]; intros k cells Hk; [lia|].
  destruct k as [|k]; simpl; [done|]. apply IH. lia.
Qed.

Lemma spec_shift_lookup_0 (fb c : term) (cells : list term) :
  cells !! 0%nat = Some c → spec_shift fb cells !! 0%nat = Some fb.
Proof. intros Hc. unfold spec_shift. by rewrite list_lookup_imap, Hc. Qed.

Lemma spec_shift_lookup_S (fb : term) (cells : list term) (i : nat) :
  (S i < length cells)%nat → spec_shift fb cells !! S i = cells !! i.
Proof.
  intros Hi. unfold spec_shift. rewrite list_lookup_imap.
  destruct (lookup_lt_is_Some_2 cells (S i)) as [x Hx]; [done|].
  destruct (lookup_lt_is_Some_2 cells i) as [y Hy]; [lia|].
  rewrite Hx, Hy. simpl. by rewrite (list_lookup_total_correct _ _ _ Hy).
Qed.

(** The cells of the snapshot at cycle [k]: the last terms recorded, newest
    first, then the seed singletons that have not been shifted out. *)
Lemma spec_snapshot_cell (taps : list Z) (width : Z) (k i : nat) :
  (i < Z.to_nat width)%nat →
  spec_snapshot taps k (spec_initial width) !! i
  = Some (if decide (i < k)%nat
          then spec_feedback taps
                 (spec_snapshot taps (k - 1 - i) (spec_initial width))
          else {[ Z.of_nat (i - k) ]}).
Proof.
  assert (length (spec_initial width) = Z.to_nat width) as Hlen.
  { unfold spec_initial. by rewrite length_fmap, py_range_length. }
  revert i. induction k as [|k IH]; intros i Hi.
  { destruct (decide (i < 0)%nat); [lia|]. simpl spec_snapshot.
    unfold spec_initial, py_range. rewrite !list_lookup_fmap.
    rewrite lookup_seq_lt by done. simpl. do 3 f_equal. lia. }
  rewrite spec_snapshot_succ. destruct i as [|i].
  - destruct (decide (0 < S k)%nat); [|lia].
    replace (S k - 1 - 0)%nat with k by lia.
    pose proof (IH 0%nat Hi) as H0. by eapply spec_shift_lookup_0.
  - rewrite spec_shift_lookup_S by (rewrite spec_snapshot_length; lia).
    rewrite IH by lia.
    destruct (decide (i < k)%nat), (decide (S i < S k)%nat); try lia.
    + do 3 f_equal. lia.
    + do 3 f_equal.
Qed.

Lemma foldl_ext_Forall {A B} (f g : A → B → A) (P : B → Prop) (a : A)
    (l : list B) :
  (∀ a x, P x → f a x = g a x) → Forall P l → foldl f a l = foldl g a l.
Proof.
  intros Hfg Hl. revert a.
  induction Hl as [|x l Hx _ IH]; intros a; simpl; [done|].
  by rewrite Hfg, IH.
Qed.

Lemma echo_snapshot (taps : list Z) (width : Z) (n k : nat) (t : Z) :
  (k < n)%nat → 0 ≤ t < width →
  spec_snapshot taps k (spec_initial width) !!! Z.to_nat t
  = echo (spec_schedule taps n (spec_initial width)) k t.
Proof.
  intros Hk Ht. unfold echo.
  assert (Z.to_nat t < Z.to_nat width)%nat as Htw by lia.
  pose proof (spec_snapshot_cell taps width k (Z.to_nat t) Htw) as Hcell.
  rewrite (list_lookup_total_correct _ _ _ Hcell).
  destruct (decide (Z.to_nat t < k)%nat) as [Hlt|Hge].
  - replace (t <? Z.of_nat k) with true by (symmetry; apply Z.ltb_lt; lia).
    symmetry. apply list_lookup_total_correct.
    apply spec_schedule_lookup. lia.
  - replace (t <? Z.of_nat k) with false by (symmetry; apply Z.ltb_ge; lia).
    f_equal. lia.
Qed.

(** X10. The schedule obeys the recurrence of the register: the term of
    cycle [k] is the symmetric difference, over the taps [t], of the term
    recorded at cycle [k - 1 - t], or of the seed singleton [{t - k}] when
    [t >= k]. *)
Theorem X10_schedule_recurrence (lfsr_len : Z) (one_indices : list Z)
    (rand_wd : Z) (out : list term) (k : nat) (term_k : term) :
  0 < lfsr_len → Forall (λ t, 0 ≤ t < lfsr_len) one_indices →
  gen_random lfsr_len one_indices rand_wd = Ok out →
  out !! k = Some term_k →
  term_k
  = foldl (λ acc t, xor_two_sets acc (echo out k t)) ∅ one_indices.
Proof.
  intros Hpos Hin Hout Hk. rewrite gen_random_closed in Hout by done.
  injection Hout as <-.
  pose proof (lookup_lt_Some _ _ _ Hk) as Hlt.
  rewrite spec_schedule_length in Hlt.
  rewrite spec_schedule_lookup in Hk by done. injection Hk as <-.
  unfold spec_feedback.
  apply (foldl_ext_Forall _ _ (λ t, 0 ≤ t < lfsr_len)); [|done].
  intros acc t Ht. f_equal. by apply echo_snapshot.
Qed.

Lemma X10_witness :
  ({[ 0; 1; 3; 4; 5 ]} : term)
  = foldl (λ acc t,
             xor_two_sets acc
               (echo [ {[ 1; 2; 4; 5 ]}; {[ 0; 1; 3; 4 ]};
                       {[ 0; 1; 3; 4; 5 ]} ] 2 t))
      ∅ [5; 4; 2; 1].
Proof.
  apply (X10_schedule_recurrence 6 [5; 4; 2; 1] 3
           [ {[ 1; 2; 4; 5 ]}; {[ 0; 1; 3; 4 ]}; {[ 0; 1; 3; 4; 5 ]} ]
           2 {[ 0; 1; 3; 4; 5 ]}).
  - lia.
  - by repeat constructor.
  - vm_compute. reflexivity.
  - reflexivity.
Defined.





(** ** The emitters on degenerate arguments *)



Section assign_raise.

Variable list_of_set : Z → term → list Z.
Hypothesis order_ok : admissible list_of_set.


End assign_raise.






(** ** Two more facts on the parser and on the terms *)

Lemma StronglySorted_desc_NoDup (l : list Z) :
  StronglySorted (λ a b, b < a) l → NoDup l.
Proof.
  induction 1 as [|x l _ IH Hlt]; constructor; [|done].
  intros Hin. rewrite Forall_forall in Hlt. specialize (Hlt _ Hin). lia.
Qed.

(** X14. The taps that [parse_polynomial] returns are listed from the
    highest one down, so none is repeated, and each lies in [[0, width)];
    the width is at least 1. *)
Theorem X14_taps_descending (literal : string) (width : Z) (taps : list Z) :
  parse_polynomial literal = Ok (width, taps) →
  1 ≤ width ∧
  Forall (λ t, 0 ≤ t < width) taps ∧
  StronglySorted (λ a b, b < a) taps ∧
  NoDup taps.
Proof.
  intros Hp. pose proof (parse_polynomial_wf _ _ _ Hp) as Hwf.
  destruct (wf_poly_range _ _ Hwf) as [Hw Hin].
  destruct Hwf as (_ & _ & Hs).
  split; [lia|]. split; [done|]. split; [done|].
  by apply StronglySorted_desc_NoDup.
Qed.

Lemma X14_witness :
  1 ≤ 9 ∧
  Forall (λ t, 0 ≤ t < 9) [8; 7; 5] ∧
  StronglySorted (λ a b, b < a) [8; 7; 5] ∧
  NoDup [8; 7; 5].
Proof. apply (X14_taps_descending "0x1a0" 9 [8; 7; 5]). reflexivity. Defined.

(** X15. [xor_two_sets] is the XOR of the bits that the terms stand for:
    on every seed, the value of [xor_two_sets a b] is the exclusive or of
    the values of [a] and of [b]; the empty term has the value 0 and a
    singleton the value of its seed bit. *)
Theorem X15_xor_two_sets_is_bit_xor (seed : Z) :
  (∀ a b : term,
     eval_term seed (xor_two_sets a b)
     = xorb (eval_term seed a) (eval_term seed b)) ∧
  eval_term seed ∅ = false ∧
  (∀ i : Z, eval_term seed {[ i ]} = Z.testbit seed i).
Proof.
  split; [apply eval_term_xor|].
  split; [apply eval_term_empty|apply eval_term_singleton].
Qed.
